(** * ts_hashmap: a fixed-capacity chained hash map with per-bucket locks

    Sequential model of [ts_hashmap.c].  Every operation of the C file takes
    the locks it needs and releases them on each of its paths before it
    returns, so between two calls no lock is held; the model describes what
    one call does to the map when it runs alone, and a history of calls is a
    list of operations run one after the other. *)

From Stdlib Require Import ZArith Lia List.
From stdpp Require Import base numbers list gmap strings pretty.

Local Open Scope Z_scope.

(** ** C integers *)

Module CInt.

(** [INT_MAX] of <limits.h> for a 32-bit [int]. *)
Definition INT_MAX : Z := 2147483647.

Definition UINT_MODULUS : Z := 2 ^ 32.

(** The conversion [(unsigned int) x] of an [int]: reduction modulo 2^32. *)
Definition to_unsigned (x : Z) : Z := x mod UINT_MODULUS.

End CInt.
Import CInt.

(** ** Outcomes of a call

    A call either returns, or stops in one of the faults the C code does not
    guard against. *)

Inductive fault : Set :=
| NullDeref      (* a store or load through a pointer that [malloc] returned as NULL *)
| DivByZero      (* [% map->capacity] with a zero capacity *)
| OutOfBounds.   (* an index beyond the cells that [initmap] initialised *)

Inductive outcome (A : Type) : Type :=
| Done (a : A)
| Fault (f : fault).
Arguments Done {A} a.
Arguments Fault {A} f.

#[export] Instance outcome_ret : MRet outcome := fun A a => Done a.
#[export] Instance outcome_bind : MBind outcome := fun A B k r =>
  match r with
  | Done a => k a
  | Fault f => Fault f
  end.

(** ** The allocator

    [malloc] is the only call of the file that can fail.  An allocator is the
    script of the answers of the coming [malloc] calls ([true]: a fresh block,
    [false]: NULL); once the script is used up every call succeeds. *)

Definition allocator : Type := list bool.

Definition malloc (heap : allocator) : bool * allocator :=
  match heap with
  | [] => (true, [])
  | answer :: heap' => (answer, heap')
  end.

(** ** Data model *)

(** Modelled from the spec: the header ts_hashmap.h, which declares
    [ts_entry_t] and [ts_hashmap_t], is absent.  An entry holds an integer key
    and an integer value; its [next] pointer is the tail of the list that
    represents its chain.  A map holds the bucket array and the counters
    [numOps], [capacity] and [size]; the spec gives the two counters as counts
    without a width, so they are integers here. *)
Record ts_entry_t : Set := { key : Z; value : Z }.

(** The chain of a bucket: the entries reached from [table[i]] through [next],
    the head first; NULL is the empty chain. *)
Definition chain : Set := list ts_entry_t.

Record ts_hashmap_t : Set :=
  { table : list chain; numOps : Z; capacity : Z; size : Z }.

Definition set_table (t : list chain) (map : ts_hashmap_t) : ts_hashmap_t :=
  {| table := t; numOps := numOps map; capacity := capacity map; size := size map |}.

Definition set_numOps (n : Z) (map : ts_hashmap_t) : ts_hashmap_t :=
  {| table := table map; numOps := n; capacity := capacity map; size := size map |}.

Definition set_size (n : Z) (map : ts_hashmap_t) : ts_hashmap_t :=
  {| table := table map; numOps := numOps map; capacity := capacity map; size := n |}.

(** ** Bucket addressing *)

(** [((unsigned int)key) % map->capacity]: the [int] capacity is converted to
    [unsigned int] by the usual arithmetic conversions. *)
Definition bucket_index (map : ts_hashmap_t) (key : Z) : outcome nat :=
  let c := to_unsigned (capacity map) in
  if c =? 0 then Fault DivByZero
  else Done (Z.to_nat (to_unsigned key mod c)).

(** [map->table[index]] as a load. *)
Definition load_bucket (map : ts_hashmap_t) (index : nat) : outcome chain :=
  match table map !! index with
  | Some entry => Done entry
  | None => Fault OutOfBounds
  end.

(** The chain of [map->table[index]] after the call relinked or updated it. *)
Definition store_bucket (map : ts_hashmap_t) (index : nat) (entry : chain) : ts_hashmap_t :=
  set_table (<[index := entry]> (table map)) map.

(** ** initmap *)

(** The [for] loop of [initmap], [n] iterations left.  [table_p] and [locks_p]
    tell whether the two arrays were allocated: the loop stores into both, and
    hands each new mutex to [pthread_mutex_init], which writes through it. *)
Fixpoint init_buckets (n : nat) (table_p locks_p : bool) (heap : allocator)
  : outcome allocator :=
  match n with
  | O => Done heap
  | S n' =>
      if negb table_p then Fault NullDeref
      else
        let '(lock_p, heap') := malloc heap in
        if negb locks_p then Fault NullDeref
        else if negb lock_p then Fault NullDeref
        else init_buckets n' table_p locks_p heap'
  end.

Definition initmap (heap : allocator) (capacity : Z)
  : outcome (ts_hashmap_t * allocator) :=
  let '(map_p, heap) := malloc heap in
  if negb map_p then Fault NullDeref
  else
    let '(table_p, heap) := malloc heap in
    let '(locks_p, heap) := malloc heap in
    heap ← init_buckets (Z.to_nat capacity) table_p locks_p heap;
    let '(props_p, heap) := malloc heap in
    if negb props_p then Fault NullDeref
    else
      Done ({| table := replicate (Z.to_nat capacity) [];
               numOps := 0; capacity := capacity; size := 0 |}, heap).

(** ** get *)

(** The [while] loop of [get]. *)
Fixpoint get_scan (entry : chain) (k : Z) : Z :=
  match entry with
  | [] => INT_MAX
  | e :: next => if key e =? k then value e else get_scan next k
  end.

Definition get (map : ts_hashmap_t) (k : Z) : outcome (Z * ts_hashmap_t) :=
  let map := set_numOps (numOps map + 1) map in
  index ← bucket_index map k;
  entry ← load_bucket map index;
  Done (get_scan entry k, map).

(** ** put *)

(** The [while] loop of [put]: the old value and the chain with the value
    overwritten in the node that carries the key, or [None] when the loop
    runs off the end of the chain. *)
Fixpoint put_scan (entry : chain) (k v : Z) : option (Z * chain) :=
  match entry with
  | [] => None
  | e :: next =>
      if key e =? k then Some (value e, {| key := key e; value := v |} :: next)
      else
        match put_scan next k v with
        | Some (oldValue, next') => Some (oldValue, e :: next')
        | None => None
        end
  end.

Definition put (heap : allocator) (map : ts_hashmap_t) (k v : Z)
  : outcome (Z * ts_hashmap_t * allocator) :=
  index ← bucket_index map k;
  entry ← load_bucket map index;
  match put_scan entry k v with
  | Some (oldValue, entry') =>
      let map := store_bucket map index entry' in
      let map := set_numOps (numOps map + 1) map in
      Done (oldValue, map, heap)
  | None =>
      let '(entry_p, heap) := malloc heap in
      if negb entry_p then Fault NullDeref
      else
        let map := store_bucket map index ({| key := k; value := v |} :: entry) in
        let map := set_numOps (numOps map + 1) map in
        let map := set_size (size map + 1) map in
        Done (INT_MAX, map, heap)
  end.

(** ** del *)

(** The [while] loop of [del].  [prev] holds the nodes already passed, so
    [prev = []] is [prevEntry == NULL]; unlinking the node found leaves the
    nodes passed followed by its successors. *)
Fixpoint del_scan (prev entry : chain) (k : Z) : option (Z * chain) :=
  match entry with
  | [] => None
  | e :: next =>
      if key e =? k then Some (value e, prev ++ next)
      else del_scan (prev ++ [e]) next k
  end.

Definition del (map : ts_hashmap_t) (k : Z) : outcome (Z * ts_hashmap_t) :=
  let map := set_numOps (numOps map + 1) map in
  let map := set_size (size map - 1) map in
  index ← bucket_index map k;
  entry ← load_bucket map index;
  match del_scan [] entry k with
  | Some (v, entry') => Done (v, store_bucket map index entry')
  | None => Done (INT_MAX, map)
  end.

(** ** Histories of calls *)

Inductive op : Set :=
| Get (k : Z)
| Put (k v : Z)
| Del (k : Z).

(** One call on the map, with the allocator it draws from. *)
Definition exec (o : op) (st : ts_hashmap_t * allocator)
  : outcome (Z * (ts_hashmap_t * allocator)) :=
  let '(map, heap) := st in
  match o with
  | Get k => '(r, map') ← get map k; Done (r, (map', heap))
  | Put k v => '(r, map', heap') ← put heap map k v; Done (r, (map', heap'))
  | Del k => '(r, map') ← del map k; Done (r, (map', heap))
  end.

Fixpoint run (ops : list op) (st : ts_hashmap_t * allocator)
  : outcome (ts_hashmap_t * allocator) :=
  match ops with
  | [] => Done st
  | o :: ops' => '(_, st') ← exec o st; run ops' st'
  end.

(** A map is reachable when [initmap] built it and a history of calls ran on
    it to completion. *)
Definition reachable (map : ts_hashmap_t) : Prop :=
  ∃ heap c ops map0 heap0 heap',
    initmap heap c = Done (map0, heap0) ∧ run ops (map0, heap0) = Done (map, heap').

(** ** Predicates on maps *)

(** The shape [initmap] gives a map built with a positive [int] capacity. *)
Definition well_sized (map : ts_hashmap_t) : Prop :=
  0 < capacity map <= INT_MAX ∧ length (table map) = Z.to_nat (capacity map).

(** At most one entry of a chain carries a given key. *)
Definition unique_keys (entry : chain) : Prop := NoDup (key <$> entry).

Definition buckets_unique (map : ts_hashmap_t) : Prop :=
  Forall unique_keys (table map).

(** No entry of the chain carries the key. *)
Definition absent (k : Z) (entry : chain) : Prop :=
  ∀ e, e ∈ entry → key e ≠ k.

Definition absent_from_map (k : Z) (map : ts_hashmap_t) : Prop :=
  Forall (absent k) (table map).

(** The number of entries over all the chains. *)
Definition entry_count (t : list chain) : Z :=
  foldr (λ entry n, Z.of_nat (length entry) + n) 0 t.

(** The bucket a key is looked up in on a well-sized map. *)
Definition home (map : ts_hashmap_t) (k : Z) : nat :=
  Z.to_nat (to_unsigned k mod capacity map).

(** The map [initmap] returns: empty buckets, counters at zero. *)
Definition fresh_map (c : Z) : ts_hashmap_t :=
  {| table := replicate (Z.to_nat c) []; numOps := 0; capacity := c; size := 0 |}.

(** ** Deciding the predicates on concrete maps *)

#[export] Instance well_sized_dec map : Decision (well_sized map).
Proof. unfold well_sized. apply _. Defined.

#[export] Instance unique_keys_dec entry : Decision (unique_keys entry).
Proof. unfold unique_keys. apply _. Defined.

#[export] Instance buckets_unique_dec map : Decision (buckets_unique map).
Proof. unfold buckets_unique. apply _. Defined.

#[export] Instance absent_dec k entry : Decision (absent k entry).
Proof.
  refine (cast_if (decide (Forall (λ e, key e ≠ k) entry)));
    unfold absent; by rewrite <- (Forall_forall (λ e, key e ≠ k)).
Defined.

#[export] Instance absent_from_map_dec k map : Decision (absent_from_map k map).
Proof. unfold absent_from_map. apply _. Defined.

(** Settles a decidable statement about concrete maps by evaluating it. *)
Ltac by_evaluation := apply (bool_decide_unpack _); by vm_compute.

(** A map with three entries chained in bucket 1, as three [put] calls of the
    keys 1, 5 and 9 leave a map of capacity 4. *)
Definition sample_map : ts_hashmap_t :=
  {| table := [ [];
                [ {| key := 9; value := 300 |};
                  {| key := 5; value := 200 |};
                  {| key := 1; value := 100 |} ];
                []; [] ];
     numOps := 3; capacity := 4; size := 3 |}.

(** The gap between the entries in the table and the [size] counter. *)
Definition drift (map : ts_hashmap_t) : Z := entry_count (table map) - size map.

(** ** printmap *)

(** The line feed that closes the line of a bucket. *)
Definition newline : string := String (Ascii.ascii_of_nat 10) EmptyString.

(** [printf("(%d,%d)", entry->key, entry->value)]. *)
Definition print_entry (e : ts_entry_t) : string :=
  "(" +:+ pretty (key e) +:+ "," +:+ pretty (value e) +:+ ")".

(** The [while] loop of [printmap]: the arrow is printed after an entry that
    has a successor. *)
Fixpoint print_chain (entry : chain) : string :=
  match entry with
  | [] => ""
  | e :: next =>
      print_entry e +:+ (match next with [] => "" | _ :: _ => " -> " end)
      +:+ print_chain next
  end.

(** The [for] loop of [printmap] from bucket [i], [n] iterations left. *)
Fixpoint print_buckets (map : ts_hashmap_t) (i n : nat) : outcome string :=
  match n with
  | O => Done ""
  | S n' =>
      entry ← load_bucket map i;
      rest ← print_buckets map (S i) n';
      Done ("[" +:+ pretty (Z.of_nat i) +:+ "] -> " +:+ print_chain entry
            +:+ newline +:+ rest)
  end.

(** The text [printmap] writes to the standard output. *)
Definition printmap (map : ts_hashmap_t) : outcome string :=
  print_buckets map 0 (Z.to_nat (capacity map)).

(** The line [printmap] writes for bucket [i]. *)
Definition bucket_line (i : nat) (entry : chain) : string :=
  "[" +:+ pretty (Z.of_nat i) +:+ "] -> "
  +:+ String.concat " -> " (print_entry <$> entry) +:+ newline.

(** ** freeMap *)

(** What [freeMap] releases, in the order of its calls. *)
Inductive release : Set :=
| FreeEntry (i : nat) (e : ts_entry_t)   (* [free(entry)] in the chain of bucket [i] *)
| MutexDestroy (i : nat)                 (* [pthread_mutex_destroy(map->entryLocks[i])] *)
| FreeMutex (i : nat)                    (* [free(map->entryLocks[i])] *)
| FreeTable                              (* [free(map->table)] *)
| FreeLocks                              (* [free(map->entryLocks)] *)
| SpinDestroy                            (* [pthread_spin_destroy(map->propsLock)] *)
| FreeProps                              (* [free(map->propsLock)] *)
| FreeMap.                               (* [free(map)] *)

#[export] Instance ts_entry_eq_dec : EqDecision ts_entry_t.
Proof. solve_decision. Defined.

#[export] Instance release_eq_dec : EqDecision release.
Proof. solve_decision. Defined.








(** ** The finite map a table stands for *)

(** The key and value pairs of a chain, the head first. *)
Definition pairs (entry : chain) : list (Z * Z) := (λ e, (key e, value e)) <$> entry.

(** The association the table holds: the first entry met with a key, going
    through the buckets in index order, gives its value. *)
Definition contents (map : ts_hashmap_t) : gmap Z Z :=
  list_to_map (pairs (concat (table map))).

(** What a call hands back for a looked-up value: [INT_MAX] stands for none. *)
Definition answer (o : option Z) : Z := default INT_MAX o.

(** The effect of a call on the association. *)
Definition apply_op (m : gmap Z Z) (o : op) : gmap Z Z :=
  match o with
  | Get _ => m
  | Put k v => <[k := v]> m
  | Del k => delete k m
  end.

(** The key a call is made for. *)
Definition op_key (o : op) : Z :=
  match o with
  | Get k | Put k _ | Del k => k
  end.

(** Whether a call is a [del] for a key the map does not hold. *)
Definition miss (o : op) (map : ts_hashmap_t) : Z :=
  match o with
  | Del k => if bool_decide (absent_from_map k map) then 1 else 0
  | _ => 0
  end.

(** The key is in no bucket of the table but, possibly, bucket [i]. *)
Definition elsewhere_absent (k : Z) (i : nat) (t : list chain) : Prop :=
  ∀ j entry, t !! j = Some entry → j ≠ i → absent k entry.

(** Every entry sits in the bucket its key hashes to. *)
Definition homed (map : ts_hashmap_t) : Prop :=
  ∀ i entry e, table map !! i = Some entry → e ∈ entry → home map (key e) = i.

Definition well_formed (map : ts_hashmap_t) : Prop :=
  well_sized map ∧ buckets_unique map ∧ homed map.

#[export] Instance homed_dec map : Decision (homed map).
Proof.
  refine (cast_if (decide (Forall (λ ie, Forall (λ e, home map (key e) = ie.1) ie.2)
                             (imap pair (table map))))).
  - intros i entry e Hi He.
    assert (imap pair (table map) !! i = Some (i, entry)) as Hie
      by (by rewrite list_lookup_imap, Hi).
    match goal with H : Forall _ (imap _ _) |- _ =>
      pose proof (Forall_lookup_1 _ _ _ _ H Hie) as Hentry end.
    simpl in Hentry. rewrite Forall_forall in Hentry. by apply Hentry.
  - intros Hh. match goal with H : ¬ _ |- _ => apply H end.
    apply Forall_lookup_2. intros j [i entry] Hj.
    rewrite list_lookup_imap in Hj.
    destruct (table map !! j) as [x|] eqn:Hx; simpl in Hj; inversion Hj; subst.
    simpl. apply Forall_forall. intros e He. by apply (Hh i entry e).
Defined.

#[export] Instance well_formed_dec map : Decision (well_formed map).
Proof. unfold well_formed. apply _. Defined.

(** The calls of [del] in a history that are made for a key the map does not
    hold at that point. *)
Fixpoint misses (ops : list op) (st : ts_hashmap_t * allocator) : Z :=
  match ops with
  | [] => 0
  | o :: ops' =>
      miss o st.1
      + match exec o st with
        | Done (_, st') => misses ops' st'
        | Fault _ => 0
        end
  end.

(** ** Proof steps *)

(** Splits the first unresolved [bind] or [match] of a hypothesis [H] that
    says a call returned, closing the branches that faulted. *)
Ltac returned H :=
  repeat match type of H with
    | mbind _ ?c = Done _ =>
        let E := fresh "E" in destruct c eqn:E; simpl in H; [| discriminate H]
    | match ?c with Some _ => _ | None => _ end = Done _ =>
        let E := fresh "E" in destruct c as [[? ?]|] eqn:E; simpl in H
    | (let '(_, _) := ?c in _) = Done _ =>
        let E := fresh "E" in destruct c as [[|] ?] eqn:E; simpl in H;
        [| discriminate H]
    end.

(** * Properties *)

(** ** The three loops *)

Section Scans.

Implicit Types (entry prev pre post : chain) (e : ts_entry_t) (k v : Z).

Lemma absent_nil k : absent k [].
Proof. intros e He. inversion He. Qed.

Lemma absent_cons k e entry :
  absent k (e :: entry) ↔ key e ≠ k ∧ absent k entry.
Proof.
  unfold absent. split.
  - intros H. split; [apply H; left | intros x Hx; apply H; by right].
  - intros [Hne H] x Hx. apply elem_of_cons in Hx as [-> | Hx]; auto.
Qed.

Lemma absent_app k pre post :
  absent k (pre ++ post) ↔ absent k pre ∧ absent k post.
Proof.
  induction pre as [|e pre IH]; simpl.
  - split; [intros H; split; [apply absent_nil | done] | by intros [_ H]].
  - rewrite !absent_cons, IH. tauto.
Qed.

Lemma absent_keys k entry : absent k entry ↔ k ∉ key <$> entry.
Proof.
  induction entry as [|e entry IH]; simpl.
  - split; [intros _ H; inversion H | intros _; apply absent_nil].
  - rewrite absent_cons, not_elem_of_cons, IH. split; intros [? ?]; split; auto.
Qed.

(** A chain either holds no node with the key, or splits at the first one. *)
Lemma chain_split k entry :
  absent k entry ∨
  ∃ pre e post, entry = pre ++ e :: post ∧ key e = k ∧ absent k pre.
Proof.
  induction entry as [|e entry IH].
  - left. apply absent_nil.
  - destruct (decide (key e = k)) as [Heq | Hne].
    + right. exists [], e, entry. split; [done | split; [done | apply absent_nil]].
    + destruct IH as [Habs | (pre & e' & post & -> & Hk & Hpre)].
      * left. by apply absent_cons.
      * right. exists (e :: pre), e', post.
        split; [done | split; [done | by apply absent_cons]].
Qed.

Lemma get_scan_absent k entry : absent k entry → get_scan entry k = INT_MAX.
Proof.
  induction entry as [|e entry IH]; [done |].
  intros [Hne Habs]%absent_cons. simpl.
  destruct (Z.eqb_spec (key e) k); [done | auto].
Qed.

Lemma get_scan_first k pre e post :
  key e = k → absent k pre → get_scan (pre ++ e :: post) k = value e.
Proof.
  intros Hk. induction pre as [|x pre IH]; simpl.
  - intros _. by rewrite Hk, Z.eqb_refl.
  - intros [Hne Habs]%absent_cons.
    destruct (Z.eqb_spec (key x) k); [done | auto].
Qed.

(** In a chain with unique keys the first node with a key is the only one. *)
Lemma unique_first k pre e post x :
  unique_keys (pre ++ e :: post) → key e = k → absent k pre →
  x ∈ pre ++ e :: post → key x = k → x = e.
Proof.
  unfold unique_keys. rewrite fmap_app, fmap_cons.
  intros (_ & _ & [Hnotin _]%NoDup_cons)%NoDup_app Hk Hpre Hx Hxk.
  apply elem_of_app in Hx as [Hx | Hx].
  - by destruct (Hpre x Hx).
  - apply elem_of_cons in Hx as [-> | Hx]; [done |].
    destruct Hnotin. rewrite Hk, <- Hxk. by apply list_elem_of_fmap_2.
Qed.

Lemma put_scan_absent k v entry : absent k entry → put_scan entry k v = None.
Proof.
  induction entry as [|e entry IH]; [done |].
  intros [Hne Habs]%absent_cons. simpl.
  destruct (Z.eqb_spec (key e) k); [done |]. by rewrite IH.
Qed.

Lemma put_scan_first k v pre e post :
  key e = k → absent k pre →
  put_scan (pre ++ e :: post) k v
  = Some (value e, pre ++ {| key := k; value := v |} :: post).
Proof.
  intros Hk. induction pre as [|x pre IH]; simpl.
  - intros _. by rewrite Hk, Z.eqb_refl.
  - intros [Hne Habs]%absent_cons.
    destruct (Z.eqb_spec (key x) k); [done |]. by rewrite IH.
Qed.

Lemma del_scan_absent k prev entry : absent k entry → del_scan prev entry k = None.
Proof.
  revert prev. induction entry as [|e entry IH]; intros prev; [done |].
  intros [Hne Habs]%absent_cons. simpl.
  destruct (Z.eqb_spec (key e) k); [done | auto].
Qed.

Lemma del_scan_first k prev pre e post :
  key e = k → absent k pre →
  del_scan prev (pre ++ e :: post) k = Some (value e, prev ++ pre ++ post).
Proof.
  intros Hk. revert prev. induction pre as [|x pre IH]; intros prev; simpl.
  - intros _. by rewrite Hk, Z.eqb_refl.
  - intros [Hne Habs]%absent_cons.
    destruct (Z.eqb_spec (key x) k); [done |].
    rewrite IH by done. by rewrite <- app_assoc.
Qed.

(** Overwriting a value keeps the keys of the chain. *)
Lemma overwrite_keys k v pre e post :
  key e = k →
  key <$> (pre ++ {| key := k; value := v |} :: post) = key <$> (pre ++ e :: post).
Proof. intros <-. by rewrite !fmap_app, !fmap_cons. Qed.

Lemma unique_keys_unlink pre e post :
  unique_keys (pre ++ e :: post) → unique_keys (pre ++ post).
Proof.
  unfold unique_keys. rewrite !fmap_app, fmap_cons, !NoDup_app.
  intros (Hpre & Hdisj & [_ Hpost]%NoDup_cons).
  split; [done | split; [| done]].
  intros x Hx Hin. apply (Hdisj x Hx). by right.
Qed.

Lemma absent_unlink k pre e post :
  unique_keys (pre ++ e :: post) → key e = k → absent k (pre ++ post).
Proof.
  unfold unique_keys. rewrite fmap_app, fmap_cons, NoDup_app.
  intros (_ & Hdisj & [Hnotin _]%NoDup_cons) Hk.
  apply absent_keys. rewrite fmap_app, not_elem_of_app. split.
  - intros Hin. apply (Hdisj k Hin). rewrite Hk. left.
  - by rewrite <- Hk.
Qed.

End Scans.

(** ** Addressing and bucket updates *)

Section Addressing.

Implicit Types (map : ts_hashmap_t) (k v n : Z) (entry : chain) (t : list chain).

Lemma to_unsigned_small n : 0 < n <= INT_MAX → to_unsigned n = n.
Proof.
  unfold to_unsigned, UINT_MODULUS, INT_MAX. intros H.
  apply Z.mod_small. lia.
Qed.

Lemma home_lt map k : well_sized map → (home map k < length (table map))%nat.
Proof.
  intros [Hc Hlen]. rewrite Hlen. unfold home.
  pose proof (Z.mod_pos_bound (to_unsigned k) (capacity map)). lia.
Qed.

Lemma home_bucket map k : well_sized map → ∃ entry, table map !! home map k = Some entry.
Proof. intros H. apply lookup_lt_is_Some_2, home_lt, H. Qed.

Lemma bucket_index_home map k : well_sized map → bucket_index map k = Done (home map k).
Proof.
  intros [Hc _]. unfold bucket_index, home.
  rewrite to_unsigned_small by done.
  destruct (Z.eqb_spec (capacity map) 0); [lia | done].
Qed.

(** A map of capacity zero, which [initmap(0)] returns, stops every call at
    the remainder that picks the bucket. *)
Lemma zero_capacity_faults map k v heap :
  capacity map = 0 →
  get map k = Fault DivByZero ∧ put heap map k v = Fault DivByZero
  ∧ del map k = Fault DivByZero.
Proof.
  intros Hc. unfold get, put, del, bucket_index. simpl. by rewrite Hc.
Qed.

(** A call that got past the index computation and the load found its
    bucket inside the table. *)
Lemma load_bucket_Done map i entry :
  load_bucket map i = Done entry → table map !! i = Some entry.
Proof. unfold load_bucket. destruct (table map !! i); by inversion 1. Qed.

Lemma entry_count_insert t i entry entry' :
  t !! i = Some entry →
  entry_count (<[i := entry']> t)
  = entry_count t - Z.of_nat (length entry) + Z.of_nat (length entry').
Proof.
  revert i. induction t as [|c t IH]; intros [|i] Hi; simpl in *; try done.
  - inversion Hi; subst. lia.
  - rewrite (IH i Hi). lia.
Qed.

Lemma entry_count_replicate (n : nat) : entry_count (replicate n []) = 0.
Proof. induction n as [|n IH]; simpl; [done | by rewrite IH]. Qed.

Lemma well_sized_store map i entry :
  well_sized map → well_sized (store_bucket map i entry).
Proof. intros [Hc Hlen]. split; simpl; [done | by rewrite length_insert]. Qed.

Lemma store_bucket_lookup map i entry old :
  table map !! i = Some old → table (store_bucket map i entry) !! i = Some entry.
Proof. intros H. simpl. apply list_lookup_insert_eq. by eapply lookup_lt_Some. Qed.

End Addressing.

(** ** What each call computes on a well-sized map *)

Section Calls.

Implicit Types (map : ts_hashmap_t) (k v : Z) (entry : chain) (heap : allocator).

Lemma get_eq map k entry :
  well_sized map → table map !! home map k = Some entry →
  get map k = Done (get_scan entry k, set_numOps (numOps map + 1) map).
Proof.
  intros Hs Hb. unfold get.
  replace (bucket_index (set_numOps (numOps map + 1) map) k)
    with (bucket_index map k) by done.
  rewrite bucket_index_home by done. simpl.
  unfold load_bucket. simpl. by rewrite Hb.
Qed.

Lemma put_eq heap map k v entry :
  well_sized map → table map !! home map k = Some entry →
  put heap map k v =
  match put_scan entry k v with
  | Some (oldValue, entry') =>
      Done (oldValue,
            set_numOps (numOps map + 1) (store_bucket map (home map k) entry'),
            heap)
  | None =>
      if (malloc heap).1 then
        Done (INT_MAX,
              set_size (size map + 1)
                (set_numOps (numOps map + 1)
                   (store_bucket map (home map k) ({| key := k; value := v |} :: entry))),
              (malloc heap).2)
      else Fault NullDeref
  end.
Proof.
  intros Hs Hb. unfold put.
  rewrite bucket_index_home by done. simpl.
  unfold load_bucket. rewrite Hb. simpl.
  destruct (put_scan entry k v) as [[old entry']|]; [done |].
  by destruct (malloc heap) as [[|] heap'].
Qed.

Lemma del_eq map k entry :
  well_sized map → table map !! home map k = Some entry →
  del map k =
  let map1 := set_size (size map - 1) (set_numOps (numOps map + 1) map) in
  match del_scan [] entry k with
  | Some (v, entry') => Done (v, store_bucket map1 (home map k) entry')
  | None => Done (INT_MAX, map1)
  end.
Proof.
  intros Hs Hb. unfold del.
  replace (bucket_index (set_size _ _) k) with (bucket_index map k) by done.
  rewrite bucket_index_home by done. simpl.
  unfold load_bucket. simpl. rewrite Hb. simpl.
  by destruct (del_scan [] entry k) as [[v entry']|].
Qed.

End Calls.

(** ** What a call that returned has done *)

Section Returned.

Implicit Types (map : ts_hashmap_t) (k v r : Z) (entry : chain) (heap : allocator).

Lemma put_scan_Some k v entry old entry' :
  put_scan entry k v = Some (old, entry') →
  ∃ pre e post, entry = pre ++ e :: post ∧ key e = k ∧ absent k pre ∧
                old = value e ∧ entry' = pre ++ {| key := k; value := v |} :: post.
Proof.
  intros H. destruct (chain_split k entry) as [Habs | (pre & e & post & -> & Hk & Hpre)].
  - rewrite put_scan_absent in H by done. discriminate.
  - rewrite put_scan_first in H by done. inversion H; subst. by exists pre, e, post.
Qed.

Lemma put_scan_None k v entry : put_scan entry k v = None → absent k entry.
Proof.
  intros H. destruct (chain_split k entry) as [Habs | (pre & e & post & -> & Hk & Hpre)];
    [done |].
  rewrite put_scan_first in H by done. discriminate.
Qed.

Lemma del_scan_Some k entry old entry' :
  del_scan [] entry k = Some (old, entry') →
  ∃ pre e post, entry = pre ++ e :: post ∧ key e = k ∧ absent k pre ∧
                old = value e ∧ entry' = pre ++ post.
Proof.
  intros H. destruct (chain_split k entry) as [Habs | (pre & e & post & -> & Hk & Hpre)].
  - rewrite del_scan_absent in H by done. discriminate.
  - rewrite del_scan_first in H by done. inversion H; subst. by exists pre, e, post.
Qed.

Lemma del_scan_None k entry : del_scan [] entry k = None → absent k entry.
Proof.
  intros H. destruct (chain_split k entry) as [Habs | (pre & e & post & -> & Hk & Hpre)];
    [done |].
  rewrite del_scan_first in H by done. discriminate.
Qed.

Lemma initmap_Done heap c map heap' :
  initmap heap c = Done (map, heap') → map = fresh_map c.
Proof.
  unfold initmap. intros H.
  destruct (malloc heap) as [[|] h1]; simpl in H; [| discriminate].
  destruct (malloc h1) as [table_p h2]. destruct (malloc h2) as [locks_p h3].
  destruct (init_buckets _ _ _ _) as [h4|]; simpl in H; [| discriminate].
  destruct (malloc h4) as [[|] h5]; simpl in H; [| discriminate].
  by inversion H.
Qed.

Lemma get_Done map k r map' :
  get map k = Done (r, map') → map' = set_numOps (numOps map + 1) map.
Proof. unfold get. intros H. returned H. by inversion H. Qed.

(** A [put] that returned either overwrote the first node with the key, or
    found none, drew a block from the allocator and linked it at the head. *)
Lemma put_Done heap map k v r map' heap' :
  put heap map k v = Done (r, map', heap') →
  ∃ i entry entry',
    table map !! i = Some entry ∧
    map' = set_numOps (numOps map + 1) (store_bucket map i entry')
           ∧ heap' = heap ∧ put_scan entry k v = Some (r, entry')
    ∨
    table map !! i = Some entry ∧
    map' = set_size (size map + 1)
             (set_numOps (numOps map + 1)
                (store_bucket map i ({| key := k; value := v |} :: entry)))
           ∧ malloc heap = (true, heap') ∧ put_scan entry k v = None ∧ r = INT_MAX
           ∧ entry' = entry.
Proof.
  unfold put. intros H. returned H; inversion H; subst; eexists _, _, _.
  - left. split; [by apply load_bucket_Done | done].
  - right. split; [by apply load_bucket_Done | done].
Qed.

(** A [del] that returned either unlinked the first node with the key, or
    found none and left the table alone; the counters moved in both cases. *)
Lemma del_Done map k r map' :
  del map k = Done (r, map') →
  let map1 := set_size (size map - 1) (set_numOps (numOps map + 1) map) in
  ∃ i entry entry',
    table map !! i = Some entry ∧
    (map' = store_bucket map1 i entry' ∧ del_scan [] entry k = Some (r, entry')
     ∨ map' = map1 ∧ del_scan [] entry k = None ∧ r = INT_MAX ∧ entry' = entry).
Proof.
  unfold del. intros H. returned H; inversion H; subst; eexists _, _, _.
  - split; [by apply load_bucket_Done | by left].
  - split; [by apply load_bucket_Done | by right].
Qed.

End Returned.

(** ** Invariants of the table *)

Section Invariants.

Implicit Types (map : ts_hashmap_t) (k v r : Z) (entry pre post : chain)
  (e : ts_entry_t) (heap : allocator) (o : op).

Lemma unique_keys_overwrite k v pre e post :
  unique_keys (pre ++ e :: post) → key e = k →
  unique_keys (pre ++ {| key := k; value := v |} :: post).
Proof. unfold unique_keys. intros H Hk. by rewrite (overwrite_keys k v pre e post). Qed.

Lemma unique_keys_link k v entry :
  absent k entry → unique_keys entry → unique_keys ({| key := k; value := v |} :: entry).
Proof.
  unfold unique_keys. intros Habs%absent_keys Hu.
  rewrite fmap_cons. by apply NoDup_cons.
Qed.

Lemma absent_overwrite k0 k v pre e post :
  absent k0 (pre ++ e :: post) → key e = k →
  absent k0 (pre ++ {| key := k; value := v |} :: post).
Proof.
  rewrite !absent_app, !absent_cons. simpl.
  intros (Hpre & Hne & Hpost) <-. done.
Qed.

Lemma absent_drop k0 pre e post : absent k0 (pre ++ e :: post) → absent k0 (pre ++ post).
Proof. rewrite !absent_app, absent_cons. tauto. Qed.

Lemma exec_Done o map heap r map' heap' :
  exec o (map, heap) = Done (r, (map', heap')) →
  match o with
  | Get k => get map k = Done (r, map') ∧ heap' = heap
  | Put k v => put heap map k v = Done (r, map', heap')
  | Del k => del map k = Done (r, map') ∧ heap' = heap
  end.
Proof.
  destruct o as [k | k v | k]; simpl; intros H.
  - destruct (get map k) as [[r0 m0]|]; simpl in H; by inversion H.
  - destruct (put heap map k v) as [[[r0 m0] h0]|]; simpl in H; by inversion H.
  - destruct (del map k) as [[r0 m0]|]; simpl in H; by inversion H.
Qed.

(** No call changes the capacity or the length of the bucket array. *)
Lemma exec_well_sized o map heap r map' heap' :
  well_sized map → exec o (map, heap) = Done (r, (map', heap')) → well_sized map'.
Proof.
  intros Hs H%exec_Done. destruct o as [k | k v | k].
  - destruct H as [->%get_Done _]. done.
  - apply put_Done in H as (i & entry & entry' & [(_ & -> & _) | (_ & -> & _)]);
      by apply (well_sized_store map).
  - destruct H as [H _].
    apply del_Done in H as (i & entry & entry' & _ & [(-> & _) | (-> & _)]);
      [| done].
    destruct Hs as [Hc Hlen]. split; simpl; [done | by rewrite length_insert].
Qed.

(** Every call keeps the keys of every chain distinct. *)
Lemma exec_buckets_unique o map heap r map' heap' :
  buckets_unique map → exec o (map, heap) = Done (r, (map', heap')) →
  buckets_unique map'.
Proof.
  unfold buckets_unique. intros Hu H%exec_Done. destruct o as [k | k v | k].
  - destruct H as [->%get_Done _]. done.
  - apply put_Done in H as (i & entry & entry' & [(Hi & -> & _ & Hscan) | (Hi & -> & _ & Hscan & _)]);
      simpl; apply Forall_insert; try done;
      pose proof (Forall_lookup_1 _ _ _ _ Hu Hi) as Hentry.
    + apply put_scan_Some in Hscan as (pre & e & post & -> & Hk & _ & _ & ->).
      by apply (unique_keys_overwrite k v pre e post).
    + apply unique_keys_link; [by eapply put_scan_None | done].
  - destruct H as [H _].
    apply del_Done in H as (i & entry & entry' & Hi & [(-> & Hscan) | (-> & _)]);
      [| done].
    simpl. apply Forall_insert; [done |].
    pose proof (Forall_lookup_1 _ _ _ _ Hu Hi) as Hentry.
    apply del_scan_Some in Hscan as (pre & e & post & -> & _ & _ & _ & ->).
    by eapply unique_keys_unlink.
Qed.

(** A call that is not a [put] of [k0] leaves [k0] out of every chain. *)
Lemma exec_absent k0 o map heap r map' heap' :
  (∀ v, o ≠ Put k0 v) →
  absent_from_map k0 map → exec o (map, heap) = Done (r, (map', heap')) →
  absent_from_map k0 map'.
Proof.
  unfold absent_from_map. intros Ho Ha H%exec_Done. destruct o as [k | k v | k].
  - destruct H as [->%get_Done _]. done.
  - apply put_Done in H as (i & entry & entry' & [(Hi & -> & _ & Hscan) | (Hi & -> & _ & Hscan & _)]);
      simpl; apply Forall_insert; try done;
      pose proof (Forall_lookup_1 _ _ _ _ Ha Hi) as Hentry.
    + apply put_scan_Some in Hscan as (pre & e & post & -> & Hk & _ & _ & ->).
      by apply (absent_overwrite k0 k v pre e post).
    + apply absent_cons. split; [| done]. simpl. intros ->. by apply (Ho v).
  - destruct H as [H _].
    apply del_Done in H as (i & entry & entry' & Hi & [(-> & Hscan) | (-> & _)]);
      [| done].
    simpl. apply Forall_insert; [done |].
    pose proof (Forall_lookup_1 _ _ _ _ Ha Hi) as Hentry.
    apply del_scan_Some in Hscan as (pre & e & post & -> & _ & _ & _ & ->).
    by eapply absent_drop.
Qed.

Lemma run_cons_Done o ops map heap map' heap' :
  run (o :: ops) (map, heap) = Done (map', heap') →
  ∃ r map1 heap1,
    exec o (map, heap) = Done (r, (map1, heap1)) ∧
    run ops (map1, heap1) = Done (map', heap').
Proof.
  intros H.
  change (('(_, st') ← exec o (map, heap); run ops st') = Done (map', heap')) in H.
  destruct (exec o (map, heap)) as [[r [map1 heap1]]|]; [| discriminate H].
  by exists r, map1, heap1.
Qed.

(** An invariant of every call is an invariant of every history. *)
Lemma run_invariant (P : ts_hashmap_t → Prop) (ok : op → Prop) :
  (∀ o map heap r map' heap',
      ok o → P map → exec o (map, heap) = Done (r, (map', heap')) → P map') →
  ∀ ops map heap map' heap',
    Forall ok ops → P map → run ops (map, heap) = Done (map', heap') → P map'.
Proof.
  intros Hstep ops. induction ops as [|o ops IH]; intros map heap map' heap' Hok HP H.
  - simpl in H. by inversion H; subst.
  - apply Forall_cons in Hok as [Ho Hok].
    apply run_cons_Done in H as (r & map1 & heap1 & Hexec & Hrun).
    eapply IH; [done | | done]. by eapply Hstep.
Qed.

(** The sample map is the one that three [put] calls build from
    [initmap(4)]. *)
Example sample_map_history :
  initmap [] 4 = Done (fresh_map 4, []) ∧
  run [Put 1 100; Put 5 200; Put 9 300] (fresh_map 4, []) = Done (sample_map, []).
Proof. split; reflexivity. Qed.

Lemma fresh_map_well_sized c : 0 < c <= INT_MAX → well_sized (fresh_map c).
Proof. intros Hc. split; simpl; [done | by rewrite length_replicate]. Qed.

Lemma fresh_map_unique c : buckets_unique (fresh_map c).
Proof. apply Forall_replicate. apply NoDup_nil_2. Qed.

Lemma fresh_map_absent k c : absent_from_map k (fresh_map c).
Proof. apply Forall_replicate, absent_nil. Qed.

Lemma reachable_unique map : reachable map → buckets_unique map.
Proof.
  intros (heap & c & ops & map0 & heap0 & heap' & ->%initmap_Done & Hrun).
  eapply (run_invariant buckets_unique (λ _, True)); [| | | done].
  - intros o m h r m' h' _. apply exec_buckets_unique.
  - by apply Forall_true.
  - apply fresh_map_unique.
Qed.

Lemma run_well_sized ops c heap map heap' :
  0 < c <= INT_MAX → run ops (fresh_map c, heap) = Done (map, heap') → well_sized map.
Proof.
  intros Hc Hrun.
  eapply (run_invariant well_sized (λ _, True)); [| | | done].
  - intros o m h r m' h' _. apply exec_well_sized.
  - by apply Forall_true.
  - by apply fresh_map_well_sized.
Qed.

(** The maps the calls are specified on are the ones a program meets: a map
    built with a positive [int] capacity is well sized with distinct keys
    in every chain, whatever history ran on it. *)
Lemma reachable_well_formed heap c ops map0 heap0 map heap' :
  0 < c <= INT_MAX →
  initmap heap c = Done (map0, heap0) → run ops (map0, heap0) = Done (map, heap') →
  well_sized map ∧ buckets_unique map.
Proof.
  intros Hc Hinit Hrun. split.
  - apply initmap_Done in Hinit as ->. by eapply run_well_sized.
  - apply reachable_unique. by exists heap, c, ops, map0, heap0, heap'.
Qed.

Lemma run_absent k ops c heap map heap' :
  (∀ v, Put k v ∉ ops) → run ops (fresh_map c, heap) = Done (map, heap') →
  absent_from_map k map.
Proof.
  intros Hops Hrun.
  eapply (run_invariant (absent_from_map k) (λ o, ∀ v, o ≠ Put k v)); [| | | done].
  - intros o m h r m' h' Ho. by apply exec_absent.
  - apply Forall_forall. intros o Ho v ->. by apply (Hops v).
  - apply fresh_map_absent.
Qed.

End Invariants.

(** ** The [size] counter *)

Section Size.

Implicit Types (map : ts_hashmap_t) (k v r : Z) (heap : allocator) (o : op).

(** A call either keeps [size] in step with the table, or it is a [del]
    that found nothing to unlink and lowered [size] all the same. *)
Lemma exec_drift o map heap r map' heap' :
  exec o (map, heap) = Done (r, (map', heap')) →
  drift map' = drift map
  ∨ (∃ k, o = Del k) ∧ r = INT_MAX ∧ table map' = table map
    ∧ drift map' = drift map + 1.
Proof.
  unfold drift. intros H%exec_Done. destruct o as [k | k v | k].
  - destruct H as [->%get_Done _]. by left.
  - left.
    apply put_Done in H as (i & entry & entry' & [(Hi & -> & _ & Hscan) | (Hi & -> & _)]);
      simpl; rewrite (entry_count_insert _ _ _ _ Hi).
    + apply put_scan_Some in Hscan as (pre & e & post & -> & _ & _ & _ & ->).
      rewrite !length_app. simpl. lia.
    + simpl length. lia.
  - destruct H as [H _].
    apply del_Done in H as (i & entry & entry' & Hi & [(-> & Hscan) | (-> & _ & -> & _)]).
    + left. simpl. rewrite (entry_count_insert _ _ _ _ Hi).
      apply del_scan_Some in Hscan as (pre & e & post & -> & _ & _ & _ & ->).
      rewrite !length_app. simpl. lia.
    + right. split; [by exists k |]. simpl. split; [done | split; [done | lia]].
Qed.

(** Histories of [get] and [put] alone keep [size] equal to the number of
    entries. *)
Lemma run_without_del_size ops c heap map heap' :
  (∀ k, Del k ∉ ops) → run ops (fresh_map c, heap) = Done (map, heap') →
  size map = entry_count (table map).
Proof.
  intros Hops Hrun.
  enough (drift map = 0) by (unfold drift in *; lia).
  eapply (run_invariant (λ m, drift m = 0) (λ o, ∀ k, o ≠ Del k)); [| | | done].
  - intros o m h r m' h' Ho Hm Hexec.
    destruct (exec_drift _ _ _ _ _ _ Hexec) as [-> | ([k ->] & _)]; [done |].
    by destruct (Ho k).
  - apply Forall_forall. intros o Ho k ->. by apply (Hops k).
  - unfold drift. simpl. rewrite entry_count_replicate. lia.
Qed.

End Size.

(** ** After a [put] *)

Section AfterPut.

Implicit Types (map : ts_hashmap_t) (k v r : Z) (entry pre post : chain)
  (heap : allocator).

(** With a block to draw from the allocator, [put] returns. *)
Lemma put_returns heap map k v :
  well_sized map → (malloc heap).1 = true →
  ∃ r map' heap', put heap map k v = Done (r, map', heap').
Proof.
  intros Hs Hm. destruct (home_bucket map k Hs) as [entry Hb].
  rewrite (put_eq heap map k v entry) by done. rewrite Hm.
  destruct (put_scan entry k v) as [[old entry']|]; by eexists _, _, _.
Qed.

(** Once [put] has returned, the first node of the bucket of the key that
    carries the key holds the value put. *)
Lemma put_leaves_value heap map k v r map' heap' :
  well_sized map → put heap map k v = Done (r, map', heap') →
  well_sized map' ∧ capacity map' = capacity map ∧
  ∃ pre post,
    table map' !! home map k = Some (pre ++ {| key := k; value := v |} :: post) ∧
    absent k pre.
Proof.
  intros Hs H. destruct (home_bucket map k Hs) as [entry Hb].
  rewrite (put_eq heap map k v entry) in H by done.
  destruct (chain_split k entry) as [Habs | (pre & e & post & -> & Hk & Hpre)].
  - rewrite put_scan_absent in H by done.
    destruct (malloc heap).1; [| discriminate H]. inversion H; subst.
    split; [by apply (well_sized_store map) |]. split; [done |].
    exists [], entry. split; [| apply absent_nil].
    by apply (store_bucket_lookup map _ _ entry).
  - rewrite put_scan_first in H by done. inversion H; subst.
    split; [by apply (well_sized_store map) |]. split; [done |].
    exists pre, post. split; [| done].
    by apply (store_bucket_lookup map _ _ (pre ++ e :: post)).
Qed.

End AfterPut.

(** ** Allocation failures *)

Section Allocation.

Implicit Types (heap h : allocator) (n : nat) (map : ts_hashmap_t).

(** The first answer of a script and the answers behind it. *)
Lemma malloc_take n heap :
  false ∈ take (S n) heap ↔ (malloc heap).1 = false ∨ false ∈ take n (malloc heap).2.
Proof.
  destruct heap as [|a h]; simpl.
  - rewrite take_nil. split; [intros H; inversion H | intros [H | H]; [done | inversion H]].
  - rewrite elem_of_cons. split; intros [H | H]; auto.
Qed.

Lemma malloc_drop n heap : drop (S n) heap = drop n (malloc heap).2.
Proof. destruct heap as [|a h]; simpl; [by rewrite drop_nil | done]. Qed.

(** The loop of [initmap] over allocated arrays, followed by the allocation
    of the properties lock: one failure among the [n + 1] allocations stops
    the call, and without one the call returns the map. *)
Lemma init_tail n heap map :
  let rest :=
    h ← init_buckets n true true heap;
    let '(props_p, h) := malloc h in
    if negb props_p then Fault NullDeref else Done (map, h) in
  (false ∈ take (S n) heap → rest = Fault NullDeref) ∧
  (false ∉ take (S n) heap → rest = Done (map, drop (S n) heap)).
Proof.
  cbv zeta. revert heap. induction n as [|n IH]; intros heap.
  - rewrite malloc_take, malloc_drop, take_0, drop_0. simpl.
    destruct (malloc heap) as [[|] h]; simpl.
    + split; [intros [H | H]; [done | inversion H] | done].
    + split; [done | intros H; destruct H; by left].
  - rewrite malloc_take, malloc_drop. simpl.
    destruct (malloc heap) as [[|] h]; simpl.
    + destruct (IH h) as [IHf IHd]. split.
      * intros [H | H]; [done | by apply IHf].
      * intros H. apply IHd. intros Hin. apply H. by right.
    + split; [done | intros H; destruct H; by left].
Qed.

(** [initmap] with a positive capacity [c] allocates [c + 4] blocks: the
    map, the two arrays, a mutex per bucket and the properties lock. *)
Lemma initmap_allocations heap c :
  0 < c →
  let n := (4 + Z.to_nat c)%nat in
  (false ∈ take n heap → initmap heap c = Fault NullDeref) ∧
  (false ∉ take n heap → initmap heap c = Done (fresh_map c, drop n heap)).
Proof.
  intros Hc n. subst n. unfold initmap, fresh_map.
  destruct (Z.to_nat c) as [|m] eqn:Em; [lia |].
  change (4 + S m)%nat with (S (S (S (S (S m))))).
  rewrite (malloc_take _ heap), (malloc_drop _ heap).
  destruct (malloc heap) as [[|] h1]; simpl;
    [| split; [done | intros H; destruct H; by left]].
  rewrite (malloc_take _ h1), (malloc_drop _ h1).
  destruct (malloc h1) as [table_p h2]; simpl.
  rewrite (malloc_take _ h2), (malloc_drop _ h2).
  destruct (malloc h2) as [locks_p h3]; simpl.
  destruct table_p; simpl;
    [| split; [done | intros H; destruct H; right; by left]].
  destruct locks_p; simpl.
  - pose proof (init_tail (S m) h3
                  {| table := replicate (S m) []; numOps := 0;
                     capacity := c; size := 0 |}) as [Hf Hd].
    cbv zeta in Hf, Hd. simpl in Hf, Hd. split.
    + intros [H | [H | [H | H]]]; [done | done | done | by apply Hf].
    + intros H. apply Hd. intros Hin. apply H. right. right. by right.
  - destruct (malloc h3) as [lock_p h4]. simpl.
    split; [done | intros H; destruct H; right; right; by left].
Qed.

End Allocation.

(** * The claims *)

(** C1. The claim: in every reachable state with no put or delete in flight,
    [size] equals the number of entries over all the chains.  The code breaks
    it: [del] lowers [size] before it looks for the key, so on the map that
    [initmap(4)] returns, [del(map, 7)] finds nothing, returns [INT_MAX] and
    leaves [size] at -1 over an empty table. *)
Theorem del_of_absent_key_skews_size :
  ∃ map0 heap0 map1,
    initmap [] 4 = Done (map0, heap0) ∧
    del map0 7 = Done (INT_MAX, map1) ∧
    reachable map1 ∧
    size map1 = -1 ∧ entry_count (table map1) = 0.
Proof.
  exists (fresh_map 4), [], (set_size (-1) (set_numOps 1 (fresh_map 4))).
  split; [reflexivity |]. split; [reflexivity |]. split; [| split; reflexivity].
  exists [], 4, [Del 7], (fresh_map 4), [], []. split; reflexivity.
Qed.

(** C2. On a well-sized map that holds no entry with the key, [del] returns
    the sentinel [INT_MAX], leaves the table (every chain, hence the set of
    entries) and the capacity as they were, and still raises [numOps] by one
    and lowers [size] by one. *)
Theorem del_absent_key (map : ts_hashmap_t) (k : Z) :
  well_sized map → absent_from_map k map →
  ∃ map',
    del map k = Done (INT_MAX, map') ∧
    table map' = table map ∧ capacity map' = capacity map ∧
    numOps map' = numOps map + 1 ∧ size map' = size map - 1.
Proof.
  intros Hs Ha. destruct (home_bucket map k Hs) as [entry Hb].
  rewrite (del_eq map k entry) by done.
  rewrite del_scan_absent by (by eapply Forall_lookup_1).
  eexists. split; [reflexivity | done].
Qed.

Lemma del_absent_key_witness :
  ∃ map',
    del sample_map 7 = Done (INT_MAX, map') ∧
    table map' = table sample_map ∧ capacity map' = capacity sample_map ∧
    numOps map' = numOps sample_map + 1 ∧ size map' = size sample_map - 1.
Proof. apply (del_absent_key sample_map 7); by_evaluation. Defined.

(** C3. On a well-sized map [get] looks in the bucket of index
    [unsigned(key) mod capacity].  It returns the value of the first entry of
    that chain that carries the key, which is the only such entry when the
    keys of the chain are distinct, and [INT_MAX] when no entry of the chain
    carries the key; in particular it returns [INT_MAX] when the map comes
    from [initmap] through a history that holds no [put] of the key. *)
Theorem get_returns_value_or_sentinel (map : ts_hashmap_t) (k : Z) :
  well_sized map →
  ∃ entry r,
    table map !! Z.to_nat (to_unsigned k mod capacity map) = Some entry ∧
    get map k = Done (r, set_numOps (numOps map + 1) map) ∧
    (∀ pre e post,
        entry = pre ++ e :: post → key e = k → absent k pre → r = value e) ∧
    (unique_keys entry → ∀ e, e ∈ entry → key e = k → r = value e) ∧
    (absent k entry → r = INT_MAX) ∧
    (∀ heap c ops map0 heap0 heap',
        initmap heap c = Done (map0, heap0) →
        run ops (map0, heap0) = Done (map, heap') →
        (∀ v, Put k v ∉ ops) → r = INT_MAX).
Proof.
  intros Hs. destruct (home_bucket map k Hs) as [entry Hb].
  exists entry, (get_scan entry k).
  split; [exact Hb |]. split; [by apply get_eq |].
  split; [| split; [| split]].
  - intros pre e post -> Hk Hpre. by apply get_scan_first.
  - intros Hu e He Hk.
    destruct (chain_split k entry) as [Habs | (pre & e0 & post & -> & Hk0 & Hpre)].
    + by destruct (Habs e He).
    + rewrite get_scan_first by done.
      by rewrite (unique_first k pre e0 post e).
  - apply get_scan_absent.
  - intros heap c ops map0 heap0 heap' ->%initmap_Done Hrun Hops.
    apply get_scan_absent.
    pose proof (run_absent k ops c heap0 map heap' Hops Hrun) as Ha.
    by eapply Forall_lookup_1.
Qed.

Lemma get_returns_value_or_sentinel_witness :
  ∃ entry r,
    table sample_map !! Z.to_nat (to_unsigned 5 mod capacity sample_map) = Some entry ∧
    get sample_map 5 = Done (r, set_numOps (numOps sample_map + 1) sample_map) ∧
    (∀ pre e post,
        entry = pre ++ e :: post → key e = 5 → absent 5 pre → r = value e) ∧
    (unique_keys entry → ∀ e, e ∈ entry → key e = 5 → r = value e) ∧
    (absent 5 entry → r = INT_MAX) ∧
    (∀ heap c ops map0 heap0 heap',
        initmap heap c = Done (map0, heap0) →
        run ops (map0, heap0) = Done (sample_map, heap') →
        (∀ v, Put 5 v ∉ ops) → r = INT_MAX).
Proof. apply (get_returns_value_or_sentinel sample_map 5). by_evaluation. Defined.

(** C10. On a well-sized map [get] returns, found or not, a map that differs
    from the one it was given in [numOps] alone, which is one higher: the
    capacity, [size] and the whole table, the scanned chain included, are the
    same before and after. *)
Theorem get_changes_numOps_only (map : ts_hashmap_t) (k : Z) :
  well_sized map →
  ∃ r map',
    get map k = Done (r, map') ∧
    numOps map' = numOps map + 1 ∧
    capacity map' = capacity map ∧ size map' = size map ∧ table map' = table map.
Proof.
  intros Hs. destruct (home_bucket map k Hs) as [entry Hb].
  exists (get_scan entry k), (set_numOps (numOps map + 1) map).
  split; [by apply get_eq | done].
Qed.

Lemma get_changes_numOps_only_witness :
  ∃ r map',
    get sample_map 9 = Done (r, map') ∧
    numOps map' = numOps sample_map + 1 ∧
    capacity map' = capacity sample_map ∧ size map' = size sample_map ∧
    table map' = table sample_map.
Proof. apply (get_changes_numOps_only sample_map 9). by_evaluation. Defined.

(** C4. On a well-sized map, [put(k, v1)] returns when the allocator has a
    block for it, and once it has returned a second [put(k, v2)] returns
    [v1], draws nothing from the allocator and leaves [size] and the number
    of entries as the first [put] left them; [get(k)] then returns [v2]. *)
Theorem put_twice_overwrites (heap : allocator) (map : ts_hashmap_t) (k v1 v2 : Z) :
  well_sized map →
  ((malloc heap).1 = true →
   ∃ r1 map1 heap1, put heap map k v1 = Done (r1, map1, heap1)) ∧
  (∀ r1 map1 heap1,
      put heap map k v1 = Done (r1, map1, heap1) →
      ∃ map2 map3,
        put heap1 map1 k v2 = Done (v1, map2, heap1) ∧
        get map2 k = Done (v2, map3) ∧
        size map2 = size map1 ∧
        entry_count (table map2) = entry_count (table map1)).
Proof.
  intros Hs. split; [by apply put_returns |].
  intros r1 map1 heap1 H1.
  destruct (put_leaves_value _ _ _ _ _ _ _ Hs H1) as (Hs1 & Hc1 & pre & post & Hb1 & Hpre).
  assert (home map1 k = home map k) as Hh by (unfold home; by rewrite Hc1).
  rewrite <- Hh in Hb1.
  pose (entry2 := pre ++ {| key := k; value := v2 |} :: post).
  exists (set_numOps (numOps map1 + 1) (store_bucket map1 (home map1 k) entry2)),
    (set_numOps (numOps map1 + 1 + 1) (store_bucket map1 (home map1 k) entry2)).
  split; [| split; [| split]].
  - rewrite (put_eq heap1 map1 k v2 _ Hs1 Hb1).
    by rewrite (put_scan_first k v2 pre {| key := k; value := v1 |} post).
  - rewrite (get_eq _ k entry2).
    + unfold entry2. by rewrite (get_scan_first k pre {| key := k; value := v2 |} post).
    + by apply (well_sized_store map1).
    + by apply (store_bucket_lookup map1 _ _ _ Hb1).
  - done.
  - simpl. rewrite (entry_count_insert _ _ _ _ Hb1).
    unfold entry2. rewrite !length_app. simpl. lia.
Qed.

Lemma put_twice_overwrites_witness :
  ((malloc []).1 = true →
   ∃ r1 map1 heap1, put [] sample_map 13 7 = Done (r1, map1, heap1)) ∧
  (∀ r1 map1 heap1,
      put [] sample_map 13 7 = Done (r1, map1, heap1) →
      ∃ map2 map3,
        put heap1 map1 13 8 = Done (7, map2, heap1) ∧
        get map2 13 = Done (8, map3) ∧
        size map2 = size map1 ∧
        entry_count (table map2) = entry_count (table map1)).
Proof. apply (put_twice_overwrites [] sample_map 13 7 8). by_evaluation. Defined.

(** C5. On a well-sized map that holds no entry with the key, and with a
    block to draw from the allocator, [put] draws that block, makes the new
    entry the head of the chain of bucket [unsigned(key) mod capacity] with
    the former chain behind it, leaves the other buckets alone, returns
    [INT_MAX] and raises [numOps] and [size] by one each. *)
Theorem put_new_key_links_at_head (heap : allocator) (map : ts_hashmap_t) (k v : Z) :
  well_sized map → absent_from_map k map → (malloc heap).1 = true →
  let index := Z.to_nat (to_unsigned k mod capacity map) in
  ∃ entry map',
    table map !! index = Some entry ∧
    put heap map k v = Done (INT_MAX, map', (malloc heap).2) ∧
    table map' !! index = Some ({| key := k; value := v |} :: entry) ∧
    (∀ j, j ≠ index → table map' !! j = table map !! j) ∧
    length (table map') = length (table map) ∧
    capacity map' = capacity map ∧
    numOps map' = numOps map + 1 ∧ size map' = size map + 1.
Proof.
  intros Hs Ha Hm index. destruct (home_bucket map k Hs) as [entry Hb].
  fold (home map k) in index. subst index.
  exists entry. eexists. split; [exact Hb |].
  split.
  { rewrite (put_eq heap map k v entry) by done.
    rewrite put_scan_absent by (by eapply Forall_lookup_1).
    rewrite Hm. reflexivity. }
  simpl. split; [| split; [| split]].
  - apply list_lookup_insert_eq. by eapply lookup_lt_Some.
  - intros j Hj. by apply list_lookup_insert_ne.
  - apply length_insert.
  - done.
Qed.

Lemma put_new_key_links_at_head_witness :
  let index := Z.to_nat (to_unsigned (-3) mod capacity sample_map) in
  ∃ entry map',
    table sample_map !! index = Some entry ∧
    put [true; false] sample_map (-3) 42 = Done (INT_MAX, map', (malloc [true; false]).2) ∧
    table map' !! index = Some ({| key := -3; value := 42 |} :: entry) ∧
    (∀ j, j ≠ index → table map' !! j = table sample_map !! j) ∧
    length (table map') = length (table sample_map) ∧
    capacity map' = capacity sample_map ∧
    numOps map' = numOps sample_map + 1 ∧ size map' = size sample_map + 1.
Proof.
  apply (put_new_key_links_at_head [true; false] sample_map (-3) 42); by_evaluation.
Defined.

(** C6. On a well-sized map, [put(k, v)] returns when the allocator has a
    block for it, and once it has returned, whether it overwrote an entry or
    linked a new one, [get(k)] returns [v]. *)
Theorem put_then_get (heap : allocator) (map : ts_hashmap_t) (k v : Z) :
  well_sized map →
  ((malloc heap).1 = true →
   ∃ r map1 heap1, put heap map k v = Done (r, map1, heap1)) ∧
  (∀ r map1 heap1,
      put heap map k v = Done (r, map1, heap1) →
      ∃ map2, get map1 k = Done (v, map2)).
Proof.
  intros Hs. split; [by apply put_returns |].
  intros r map1 heap1 H1.
  destruct (put_leaves_value _ _ _ _ _ _ _ Hs H1) as (Hs1 & Hc1 & pre & post & Hb1 & Hpre).
  assert (home map1 k = home map k) as Hh by (unfold home; by rewrite Hc1).
  rewrite <- Hh in Hb1.
  eexists. rewrite (get_eq map1 k _ Hs1 Hb1).
  by rewrite (get_scan_first k pre {| key := k; value := v |} post).
Qed.

Lemma put_then_get_witness :
  ((malloc []).1 = true →
   ∃ r map1 heap1, put [] sample_map 5 77 = Done (r, map1, heap1)) ∧
  (∀ r map1 heap1,
      put [] sample_map 5 77 = Done (r, map1, heap1) →
      ∃ map2, get map1 5 = Done (77, map2)).
Proof. apply (put_then_get [] sample_map 5 77). by_evaluation. Defined.

(** C7. On a well-sized map whose chains hold distinct keys, [del(k)]
    returns, whether or not it found the key, and [get(k)] on the map it
    leaves returns [INT_MAX]. *)
Theorem del_then_get (map : ts_hashmap_t) (k : Z) :
  well_sized map → buckets_unique map →
  ∃ r map1 map2, del map k = Done (r, map1) ∧ get map1 k = Done (INT_MAX, map2).
Proof.
  intros Hs Hu. destruct (home_bucket map k Hs) as [entry Hb].
  pose proof (Forall_lookup_1 _ _ _ _ Hu Hb) as Hentry.
  rewrite (del_eq map k entry) by done. cbv zeta.
  destruct (chain_split k entry) as [Habs | (pre & e & post & -> & Hk & Hpre)].
  - rewrite del_scan_absent by done.
    eexists _, _, _. split; [reflexivity |].
    rewrite (get_eq _ k entry); [| done | done].
    by rewrite get_scan_absent.
  - rewrite del_scan_first by done. simpl app.
    eexists _, _, _. split; [reflexivity |].
    rewrite (get_eq _ k (pre ++ post)).
    + rewrite get_scan_absent; [done |]. by eapply absent_unlink.
    + destruct Hs as [Hc Hlen]. split; simpl; [done | by rewrite length_insert].
    + simpl. apply list_lookup_insert_eq. by eapply lookup_lt_Some.
Qed.

Lemma del_then_get_witness :
  ∃ r map1 map2,
    del sample_map 5 = Done (r, map1) ∧ get map1 5 = Done (INT_MAX, map2).
Proof. apply (del_then_get sample_map 5); by_evaluation. Defined.

(** C8. Every map that [initmap] and a history of calls produce has at most
    one entry per key in each chain; and when the chains of a map hold
    distinct keys, so do the chains of the map that a [get], a [put] or a
    [del] on it returns. *)
Theorem unique_keys_invariant :
  (∀ map, reachable map → buckets_unique map) ∧
  (∀ map,
      buckets_unique map →
      (∀ k r map', get map k = Done (r, map') → buckets_unique map') ∧
      (∀ heap k v r map' heap',
          put heap map k v = Done (r, map', heap') → buckets_unique map') ∧
      (∀ k r map', del map k = Done (r, map') → buckets_unique map')).
Proof.
  split; [exact reachable_unique |].
  intros map Hu. split; [| split].
  - intros k r map' H.
    apply (exec_buckets_unique (Get k) map [] r map' []); [done |].
    simpl. by rewrite H.
  - intros heap k v r map' heap' H.
    apply (exec_buckets_unique (Put k v) map heap r map' heap'); [done |].
    simpl. by rewrite H.
  - intros k r map' H.
    apply (exec_buckets_unique (Del k) map [] r map' []); [done |].
    simpl. by rewrite H.
Qed.

Lemma unique_keys_invariant_witness :
  buckets_unique sample_map ∧
  ∃ r map' heap',
    put [] sample_map 17 400 = Done (r, map', heap') ∧ buckets_unique map'.
Proof.
  assert (buckets_unique sample_map) as Hu by by_evaluation.
  split; [exact Hu |].
  eexists _, _, _. split; [reflexivity |].
  apply (proj1 (proj2 (proj2 unique_keys_invariant sample_map Hu))
           [] 17 400 _ _ _ eq_refl).
Defined.

(** C9, as the code has it.  The code checks no result of [malloc] and has no
    way to report a failure.  [initmap] with a positive capacity [c] stops in
    a null dereference when one of its [c + 4] allocations fails, and returns
    the map when none does; [put] of a key that the map does not hold stops
    in a null dereference when its allocation fails, and returns when it
    succeeds. *)
Theorem allocation_failure_is_a_null_dereference
  (heap : allocator) (c : Z) (map : ts_hashmap_t) (k v : Z) :
  0 < c → well_sized map → absent_from_map k map →
  let n := (4 + Z.to_nat c)%nat in
  (false ∈ take n heap → initmap heap c = Fault NullDeref) ∧
  (false ∉ take n heap → initmap heap c = Done (fresh_map c, drop n heap)) ∧
  ((malloc heap).1 = false → put heap map k v = Fault NullDeref) ∧
  ((malloc heap).1 = true →
   ∃ map', put heap map k v = Done (INT_MAX, map', (malloc heap).2)).
Proof.
  intros Hc Hs Ha n.
  destruct (initmap_allocations heap c Hc) as [Hf Hd].
  split; [exact Hf |]. split; [exact Hd |].
  destruct (home_bucket map k Hs) as [entry Hb].
  rewrite (put_eq heap map k v entry) by done.
  rewrite put_scan_absent by (by eapply Forall_lookup_1).
  split; intros ->; [done | by eexists].
Qed.

Lemma allocation_failure_is_a_null_dereference_witness :
  let n := (4 + Z.to_nat 4)%nat in
  (false ∈ take n [false] → initmap [false] 4 = Fault NullDeref) ∧
  (false ∉ take n [false] → initmap [false] 4 = Done (fresh_map 4, drop n [false])) ∧
  ((malloc [false]).1 = false → put [false] sample_map 2 20 = Fault NullDeref) ∧
  ((malloc [false]).1 = true →
   ∃ map', put [false] sample_map 2 20 = Done (INT_MAX, map', (malloc [false]).2)).
Proof.
  apply (allocation_failure_is_a_null_dereference [false] 4 sample_map 2 20);
    [lia | by_evaluation | by_evaluation].
Defined.

(** C9, as the claim has it, fails: a failed allocation is not reported.
    [initmap(4)] stores through the NULL it got for the map, or for the
    mutex of a bucket, and [put] stores the key through the NULL it got for
    the new entry. *)
Lemma allocation_failure_is_not_reported :
  initmap [false] 4 = Fault NullDeref ∧
  initmap [true; true; true; true; false] 4 = Fault NullDeref ∧
  put [false] (fresh_map 4) 1 100 = Fault NullDeref.
Proof. repeat split; reflexivity. Qed.


(** * Further properties of the calls *)

(** ** Counters and shape along a history *)

Section Histories.

Implicit Types (map : ts_hashmap_t) (k v r c : Z) (heap : allocator) (o : op)
  (ops : list op).

Lemma exec_counters o map heap r map' heap' :
  exec o (map, heap) = Done (r, (map', heap')) →
  numOps map' = numOps map + 1 ∧ capacity map' = capacity map
  ∧ length (table map') = length (table map).
Proof.
  intros H%exec_Done. destruct o as [k | k v | k].
  - destruct H as [->%get_Done _]. done.
  - apply put_Done in H as (i & entry & entry' & [(_ & -> & _) | (_ & -> & _)]);
      simpl; by rewrite length_insert.
  - destruct H as [H _].
    apply del_Done in H as (i & entry & entry' & _ & [(-> & _) | (-> & _)]);
      simpl; [by rewrite length_insert | done].
Qed.

Lemma run_counters ops map heap map' heap' :
  run ops (map, heap) = Done (map', heap') →
  numOps map' = numOps map + Z.of_nat (length ops) ∧ capacity map' = capacity map
  ∧ length (table map') = length (table map).
Proof.
  revert map heap. induction ops as [|o ops IH]; intros map heap H.
  - simpl in H. inversion H; subst. simpl. split; [lia | done].
  - apply run_cons_Done in H as (r & map1 & heap1 & Hexec & Hrun).
    apply exec_counters in Hexec as (Hn & Hc & Hl).
    apply IH in Hrun as (Hn' & Hc' & Hl').
    rewrite Hn', Hc', Hl', Hn, Hc, Hl. simpl length. split; [lia | done].
Qed.

(** On a well-sized map a call returns, unless it is a [put] whose allocation
    failed, which stops in a null dereference. *)
Lemma exec_safe o map heap :
  well_sized map →
  (∃ r map' heap',
      exec o (map, heap) = Done (r, (map', heap')) ∧ well_sized map'
      ∧ (heap' = heap ∨ heap' = (malloc heap).2))
  ∨ (malloc heap).1 = false ∧ exec o (map, heap) = Fault NullDeref.
Proof.
  intros Hs. destruct o as [k | k v | k]; simpl;
    destruct (home_bucket map k Hs) as [entry Hb].
  - left. rewrite (get_eq map k entry) by done. simpl.
    eexists _, _, _. split; [reflexivity |]. split; [done | by left].
  - rewrite (put_eq heap map k v entry) by done.
    destruct (put_scan entry k v) as [[old entry']|].
    + left. simpl. eexists _, _, _. split; [reflexivity |].
      split; [by apply (well_sized_store map) | by left].
    + destruct (malloc heap).1 eqn:Hm; simpl.
      * left. eexists _, _, _. split; [reflexivity |].
        split; [by apply (well_sized_store map) | by right].
      * by right.
  - left. rewrite (del_eq map k entry) by done. cbv zeta.
    destruct (del_scan [] entry k) as [[old entry']|]; simpl;
      eexists _, _, _; (split; [reflexivity |]); (split; [| by left]).
    + destruct Hs as [Hc Hl]. split; simpl; [done | by rewrite length_insert].
    + done.
Qed.

Lemma malloc_never_fails heap :
  false ∉ heap → (malloc heap).1 = true ∧ false ∉ (malloc heap).2.
Proof.
  destruct heap as [|[|] h]; simpl; intros H.
  - done.
  - split; [done |]. intros Hin. apply H. by right.
  - destruct H. left.
Qed.

Lemma run_safe ops map heap :
  well_sized map →
  (∀ f, run ops (map, heap) = Fault f → f = NullDeref) ∧
  (false ∉ heap → ∃ map' heap', run ops (map, heap) = Done (map', heap')).
Proof.
  revert map heap. induction ops as [|o ops IH]; intros map heap Hs.
  - split; [done | by eexists _, _].
  - change (run (o :: ops) (map, heap))
      with ('(_, st') ← exec o (map, heap); run ops st').
    destruct (exec_safe o map heap Hs)
      as [(r & map' & heap' & -> & Hs' & Hh) | [Hm ->]]; simpl.
    + destruct (IH map' heap' Hs') as [IHf IHd]. split; [done |].
      intros Hheap. apply IHd.
      destruct (malloc_never_fails heap Hheap) as [_ Hrest].
      by destruct Hh as [-> | ->].
    + split; [by inversion 1 |]. intros Hheap.
      destruct (malloc_never_fails heap Hheap) as [Hok _]. congruence.
Qed.

End Histories.

(** X1. [numOps] counts the calls: on the map that [initmap] returned, after
    a history of [get], [put] and [del] calls that all returned, [numOps] is
    the number of calls made. *)
Theorem numOps_counts_calls heap c ops map0 heap0 map heap' :
  initmap heap c = Done (map0, heap0) →
  run ops (map0, heap0) = Done (map, heap') →
  numOps map = Z.of_nat (length ops).
Proof.
  intros ->%initmap_Done Hrun.
  apply run_counters in Hrun as (Hn & _). by rewrite Hn.
Qed.

Lemma numOps_counts_calls_witness : numOps sample_map = Z.of_nat 3.
Proof.
  apply (numOps_counts_calls [] 4 [Put 1 100; Put 5 200; Put 9 300]
           (fresh_map 4) [] sample_map []); reflexivity.
Defined.

(** X2. No call resizes the map: after any history of calls that returned,
    the capacity is the one given to [initmap] and the bucket array has as
    many cells as [initmap] gave it. *)
Theorem capacity_is_fixed heap c ops map0 heap0 map heap' :
  initmap heap c = Done (map0, heap0) →
  run ops (map0, heap0) = Done (map, heap') →
  capacity map = c ∧ length (table map) = Z.to_nat c.
Proof.
  intros ->%initmap_Done Hrun.
  apply run_counters in Hrun as (_ & Hc & Hl).
  rewrite Hc, Hl. simpl. by rewrite length_replicate.
Qed.

Lemma capacity_is_fixed_witness :
  capacity sample_map = 4 ∧ length (table sample_map) = Z.to_nat 4.
Proof.
  apply (capacity_is_fixed [] 4 [Put 1 100; Put 5 200; Put 9 300]
           (fresh_map 4) [] sample_map []); reflexivity.
Defined.

(** X3. On a map built with a positive [int] capacity, no history of calls
    divides by zero or leaves the bucket array: the only fault a history can
    stop in is the null dereference of a [put] whose allocation failed, and
    when no allocation fails the whole history returns. *)
Theorem histories_fault_on_allocation_only heap c ops map0 heap0 :
  0 < c <= INT_MAX →
  initmap heap c = Done (map0, heap0) →
  (∀ f, run ops (map0, heap0) = Fault f → f = NullDeref) ∧
  (false ∉ heap0 → ∃ map heap', run ops (map0, heap0) = Done (map, heap')).
Proof.
  intros Hc ->%initmap_Done. apply run_safe. by apply fresh_map_well_sized.
Qed.

Lemma histories_fault_on_allocation_only_witness :
  (∀ f, run [Put 1 100; Get 1; Put 2 7; Del 1] (fresh_map 4, [true; false])
        = Fault f → f = NullDeref) ∧
  (false ∉ [true; false] →
   ∃ map heap',
     run [Put 1 100; Get 1; Put 2 7; Del 1] (fresh_map 4, [true; false])
     = Done (map, heap')).
Proof.
  apply (histories_fault_on_allocation_only [true; true; true; true; true; true; true; true; true; false] 4
           [Put 1 100; Get 1; Put 2 7; Del 1] (fresh_map 4) [true; false]);
    [unfold INT_MAX; lia | reflexivity].
Defined.

(** X4. A map built with a capacity of zero or less cannot be used: its
    bucket array has no cell, and every [get], [put] and [del] on it stops in
    a division by zero or an access outside the array. *)
Theorem nonpositive_capacity_is_unusable heap c map0 heap0 o h :
  c <= 0 →
  initmap heap c = Done (map0, heap0) →
  exec o (map0, h) = Fault DivByZero ∨ exec o (map0, h) = Fault OutOfBounds.
Proof.
  intros Hc ->%initmap_Done.
  assert (Z.to_nat c = 0%nat) as Hn by lia.
  destruct o as [k | k v | k]; simpl; unfold get, put, del, bucket_index; simpl;
    destruct (to_unsigned c =? 0); simpl; auto;
    unfold load_bucket; simpl; rewrite Hn; simpl; auto.
Qed.

Lemma nonpositive_capacity_is_unusable_witness :
  exec (Put 3 4) (fresh_map (-2), []) = Fault DivByZero
  ∨ exec (Put 3 4) (fresh_map (-2), []) = Fault OutOfBounds.
Proof.
  apply (nonpositive_capacity_is_unusable [] (-2) (fresh_map (-2)) [] (Put 3 4) []);
    [lia | reflexivity].
Defined.

(** ** Calls on a key that is there, and on one that is not *)

(** X5. [put] of a key that its bucket already holds overwrites the value in
    the first node that carries the key, where the node is: it returns the
    old value, calls no [malloc] (so it returns whatever the allocator would
    answer), raises [numOps] by one and keeps [size] and the capacity. *)
Theorem put_overwrites_in_place heap map k v pre e post :
  well_sized map →
  table map !! Z.to_nat (to_unsigned k mod capacity map) = Some (pre ++ e :: post) →
  key e = k → absent k pre →
  ∃ map',
    put heap map k v = Done (value e, map', heap) ∧
    table map' = <[Z.to_nat (to_unsigned k mod capacity map)
                   := pre ++ {| key := k; value := v |} :: post]> (table map) ∧
    numOps map' = numOps map + 1 ∧ size map' = size map ∧
    capacity map' = capacity map.
Proof.
  intros Hs Hb Hk Hpre. fold (home map k) in *.
  rewrite (put_eq heap map k v _ Hs Hb).
  rewrite put_scan_first by done. by eexists.
Qed.

Lemma put_overwrites_in_place_witness :
  ∃ map',
    put [false] sample_map 5 0 = Done (200, map', [false]) ∧
    table map' = <[Z.to_nat (to_unsigned 5 mod capacity sample_map)
                   := [{| key := 9; value := 300 |}]
                      ++ {| key := 5; value := 0 |} :: [{| key := 1; value := 100 |}]]>
                   (table sample_map) ∧
    numOps map' = numOps sample_map + 1 ∧ size map' = size sample_map ∧
    capacity map' = capacity sample_map.
Proof.
  apply (put_overwrites_in_place [false] sample_map 5 0
           [{| key := 9; value := 300 |}] {| key := 5; value := 200 |}
           [{| key := 1; value := 100 |}]);
    [by_evaluation | reflexivity | reflexivity | by_evaluation].
Defined.

(** X6. [del] of a key that its bucket holds unlinks the first node that
    carries the key and returns its value: the nodes before it and after it
    stay in their order, the table holds one entry less, [numOps] goes up by
    one and [size] down by one. *)
Theorem del_unlinks_first_match map k pre e post :
  well_sized map →
  table map !! Z.to_nat (to_unsigned k mod capacity map) = Some (pre ++ e :: post) →
  key e = k → absent k pre →
  ∃ map',
    del map k = Done (value e, map') ∧
    table map' = <[Z.to_nat (to_unsigned k mod capacity map) := pre ++ post]> (table map) ∧
    entry_count (table map') = entry_count (table map) - 1 ∧
    numOps map' = numOps map + 1 ∧ size map' = size map - 1 ∧
    capacity map' = capacity map.
Proof.
  intros Hs Hb Hk Hpre. fold (home map k) in *.
  rewrite (del_eq map k _ Hs Hb). cbv zeta.
  rewrite del_scan_first by done. simpl app.
  eexists. split; [reflexivity |]. simpl. split; [done |].
  split; [| done].
  rewrite (entry_count_insert _ _ _ _ Hb), !length_app. simpl. lia.
Qed.

Lemma del_unlinks_first_match_witness :
  ∃ map',
    del sample_map 5 = Done (200, map') ∧
    table map' = <[Z.to_nat (to_unsigned 5 mod capacity sample_map)
                   := [{| key := 9; value := 300 |}] ++ [{| key := 1; value := 100 |}]]>
                   (table sample_map) ∧
    entry_count (table map') = entry_count (table sample_map) - 1 ∧
    numOps map' = numOps sample_map + 1 ∧ size map' = size sample_map - 1 ∧
    capacity map' = capacity sample_map.
Proof.
  apply (del_unlinks_first_match sample_map 5
           [{| key := 9; value := 300 |}] {| key := 5; value := 200 |}
           [{| key := 1; value := 100 |}]);
    [by_evaluation | reflexivity | reflexivity | by_evaluation].
Defined.

(** X7. Inserting a key the map does not hold and deleting it at once gives
    the table back: [put] links the entry at the head, [del] finds it there,
    returns the value put and unlinks it, so every chain and [size] are as
    before, and [numOps] has counted the two calls. *)
Theorem put_then_del_restores heap map k v :
  well_sized map → absent_from_map k map → (malloc heap).1 = true →
  ∃ map1 map2,
    put heap map k v = Done (INT_MAX, map1, (malloc heap).2) ∧
    del map1 k = Done (v, map2) ∧
    table map2 = table map ∧ size map2 = size map ∧
    numOps map2 = numOps map + 2 ∧ capacity map2 = capacity map.
Proof.
  intros Hs Ha Hm. destruct (home_bucket map k Hs) as [entry Hb].
  pose proof (Forall_lookup_1 _ _ _ _ Ha Hb) as Habs.
  rewrite (put_eq heap map k v entry Hs Hb), put_scan_absent, Hm by done.
  eexists _, _. split; [reflexivity |].
  rewrite (del_eq _ k ({| key := k; value := v |} :: entry)).
  - cbv zeta. simpl del_scan. rewrite Z.eqb_refl. simpl.
    split; [reflexivity |]. simpl.
    rewrite list_insert_insert_eq, list_insert_id by done.
    split; [done |]. split; [lia |]. split; [lia | done].
  - by apply (well_sized_store map).
  - by apply (store_bucket_lookup map _ _ entry).
Qed.

Lemma put_then_del_restores_witness :
  ∃ map1 map2,
    put [] sample_map 6 60 = Done (INT_MAX, map1, (malloc []).2) ∧
    del map1 6 = Done (60, map2) ∧
    table map2 = table sample_map ∧ size map2 = size sample_map ∧
    numOps map2 = numOps sample_map + 2 ∧ capacity map2 = capacity sample_map.
Proof. apply (put_then_del_restores [] sample_map 6 60); by_evaluation. Defined.

(** ** The table as a finite map *)

Section Refinement.

Implicit Types (map : ts_hashmap_t) (k v r c : Z) (entry pre post : chain)
  (e : ts_entry_t) (heap : allocator) (o : op) (t : list chain).

(** The association of a chain. *)
Local Abbreviation chain_map entry := (list_to_map (pairs entry) : gmap Z Z).

Lemma pairs_keys entry : (pairs entry).*1 = key <$> entry.
Proof. unfold pairs. rewrite <- list_fmap_compose. done. Qed.

Lemma chain_map_absent k entry : absent k entry ↔ chain_map entry !! k = None.
Proof. by rewrite absent_keys, <- pairs_keys, not_elem_of_list_to_map. Qed.

Lemma get_scan_answer k entry : get_scan entry k = answer (chain_map entry !! k).
Proof.
  induction entry as [|e entry IH]; [done |].
  simpl. destruct (Z.eqb_spec (key e) k) as [<- | Hne].
  - by rewrite lookup_insert_eq.
  - by rewrite lookup_insert_ne.
Qed.

Lemma chain_map_overwrite k v pre e post :
  key e = k → absent k pre →
  chain_map (pre ++ {| key := k; value := v |} :: post)
  = <[k := v]> (chain_map (pre ++ e :: post)).
Proof.
  intros <- Hpre%chain_map_absent. unfold pairs.
  rewrite !fmap_app, !fmap_cons, !list_to_map_app, !list_to_map_cons. simpl.
  by rewrite insert_union_r, insert_insert_eq.
Qed.

Lemma chain_map_unlink k pre e post :
  key e = k → absent k pre → absent k post →
  chain_map (pre ++ post) = delete k (chain_map (pre ++ e :: post)).
Proof.
  intros <- Hpre%chain_map_absent Hpost%chain_map_absent. unfold pairs in *.
  rewrite !fmap_app, !fmap_cons, !list_to_map_app, !list_to_map_cons. simpl.
  by rewrite delete_union, delete_insert_eq, !delete_id.
Qed.

(** The association of a table, bucket after bucket. *)
Local Abbreviation table_map t := (list_to_map (pairs (concat t)) : gmap Z Z).

Lemma table_map_cons entry t : table_map (entry :: t) = chain_map entry ∪ table_map t.
Proof. simpl. unfold pairs. by rewrite fmap_app, list_to_map_app. Qed.

Lemma elsewhere_absent_tail k i entry t :
  elsewhere_absent k (S i) (entry :: t) → absent k entry ∧ elsewhere_absent k i t.
Proof.
  intros H. split; [by apply (H 0%nat) |].
  intros j c Hj Hne. apply (H (S j) c); [done | lia].
Qed.

Lemma elsewhere_absent_head k entry t :
  elsewhere_absent k 0 (entry :: t) → table_map t !! k = None.
Proof.
  intros H. induction t as [|c t IH]; [done |].
  rewrite table_map_cons. apply lookup_union_None. split.
  - apply chain_map_absent. by apply (H 1%nat).
  - apply IH. intros [|j] x Hj Hne; [done |].
    destruct j as [|j]; [by apply (H 2%nat) | by apply (H (S (S (S j))))].
Qed.

Lemma table_map_lookup k i entry t :
  t !! i = Some entry → elsewhere_absent k i t →
  table_map t !! k = chain_map entry !! k.
Proof.
  revert i. induction t as [|c t IH]; intros [|i] Hi He; try done.
  - simpl in Hi. inversion Hi; subst. rewrite table_map_cons.
    apply elsewhere_absent_head in He.
    rewrite lookup_union. rewrite He. by destruct (chain_map entry !! k).
  - apply elsewhere_absent_tail in He as [Hc He]. rewrite table_map_cons.
    apply chain_map_absent in Hc.
    rewrite lookup_union, Hc, (IH i) by done.
    by destruct (chain_map entry !! k).
Qed.

Lemma table_map_insert k v i entry entry' t :
  t !! i = Some entry → elsewhere_absent k i t →
  chain_map entry' = <[k := v]> (chain_map entry) →
  table_map (<[i := entry']> t) = <[k := v]> (table_map t).
Proof.
  intros Hi He Hchain. revert i Hi He.
  induction t as [|c t IH]; intros [|i] Hi He; try done.
  - simpl in Hi. inversion Hi; subst.
    change (<[0%nat := entry']> (entry :: t)) with (entry' :: t).
    by rewrite !table_map_cons, Hchain, insert_union_l.
  - apply elsewhere_absent_tail in He as [Hc He].
    apply chain_map_absent in Hc.
    change (<[S i := entry']> (c :: t)) with (c :: <[i := entry']> t).
    by rewrite !table_map_cons, (IH i), insert_union_r.
Qed.

Lemma table_map_delete k i entry entry' t :
  t !! i = Some entry → elsewhere_absent k i t →
  chain_map entry' = delete k (chain_map entry) →
  table_map (<[i := entry']> t) = delete k (table_map t).
Proof.
  intros Hi He Hchain. revert i Hi He.
  induction t as [|c t IH]; intros [|i] Hi He; try done.
  - simpl in Hi. inversion Hi; subst.
    change (<[0%nat := entry']> (entry :: t)) with (entry' :: t).
    apply elsewhere_absent_head in He.
    by rewrite !table_map_cons, Hchain, delete_union, (delete_id (table_map t)).
  - apply elsewhere_absent_tail in He as [Hc He].
    apply chain_map_absent in Hc.
    change (<[S i := entry']> (c :: t)) with (c :: <[i := entry']> t).
    by rewrite !table_map_cons, (IH i), delete_union, (delete_id (chain_map c)).
Qed.

Lemma homed_elsewhere map k : homed map → elsewhere_absent k (home map k) (table map).
Proof.
  intros Hh j entry Hj Hne e He Hk. apply Hne.
  rewrite <- Hk. symmetry. by apply (Hh j entry e).
Qed.

(** Storing into the bucket of [k] a chain made of nodes of the old chain and
    of nodes with key [k] keeps every entry in its bucket. *)
Lemma homed_store map k entry entry' :
  homed map → table map !! home map k = Some entry →
  (∀ e, e ∈ entry' → e ∈ entry ∨ key e = k) →
  homed (store_bucket map (home map k) entry').
Proof.
  intros Hh Hb Hsub j c e Hj He.
  change (home (store_bucket map (home map k) entry') (key e))
    with (home map (key e)).
  simpl in Hj. apply list_lookup_insert_Some in Hj as [(<- & <- & _) | (Hne & Hj)].
  - destruct (Hsub e He) as [Hold | ->]; [by apply (Hh _ entry e) | done].
  - by apply (Hh j c e).
Qed.

Lemma contents_lookup map k entry :
  homed map → table map !! home map k = Some entry →
  contents map !! k = chain_map entry !! k.
Proof.
  intros Hh Hb. unfold contents.
  by apply (table_map_lookup k (home map k)), homed_elsewhere.
Qed.

Lemma fresh_map_homed c : homed (fresh_map c).
Proof.
  intros i entry e Hi He. simpl in Hi.
  apply lookup_replicate_1 in Hi as [-> _]. inversion He.
Qed.

Lemma fresh_map_contents c : contents (fresh_map c) = ∅.
Proof.
  unfold contents. simpl. induction (Z.to_nat c) as [|n IH]; [done |].
  simpl. exact IH.
Qed.

End Refinement.

(** ** Each call against the finite map *)

Section CallsRefine.

Implicit Types (map : ts_hashmap_t) (k v r c : Z) (entry pre post : chain)
  (e : ts_entry_t) (heap : allocator) (o : op) (ops : list op).

Local Abbreviation chain_map entry := (list_to_map (pairs entry) : gmap Z Z).

Lemma fresh_map_well_formed c : 0 < c <= INT_MAX → well_formed (fresh_map c).
Proof.
  intros Hc. split; [by apply fresh_map_well_sized |].
  split; [apply fresh_map_unique | apply fresh_map_homed].
Qed.

(** Replacing the chain of the bucket of [k] on a well-formed map. *)
Lemma well_formed_store map k entry entry' :
  well_formed map → table map !! home map k = Some entry →
  unique_keys entry' → (∀ e, e ∈ entry' → e ∈ entry ∨ key e = k) →
  well_formed (store_bucket map (home map k) entry').
Proof.
  intros (Hs & Hu & Hh) Hb Hu' Hsub. split; [by apply well_sized_store |].
  split; [by apply Forall_insert | by apply (homed_store map k entry)].
Qed.

Lemma get_refines map k :
  well_formed map →
  get map k = Done (answer (contents map !! k), set_numOps (numOps map + 1) map).
Proof.
  intros (Hs & Hu & Hh). destruct (home_bucket map k Hs) as [entry Hb].
  by rewrite (get_eq map k entry), (contents_lookup map k entry), get_scan_answer.
Qed.

Lemma put_refines heap map k v r map' heap' :
  well_formed map → put heap map k v = Done (r, map', heap') →
  r = answer (contents map !! k) ∧ contents map' = <[k := v]> (contents map)
  ∧ well_formed map'.
Proof.
  intros Hwf H. pose proof Hwf as (Hs & Hu & Hh).
  destruct (home_bucket map k Hs) as [entry Hb].
  pose proof (Forall_lookup_1 _ _ _ _ Hu Hb) as Hentry.
  rewrite (put_eq heap map k v entry Hs Hb) in H.
  rewrite (contents_lookup map k entry Hh Hb), <- get_scan_answer.
  destruct (chain_split k entry) as [Habs | (pre & e & post & -> & Hk & Hpre)].
  - rewrite put_scan_absent in H by done.
    destruct (malloc heap).1; [| discriminate H]. inversion H; subst.
    split; [by rewrite get_scan_absent |]. split.
    + unfold contents. simpl.
      apply (table_map_insert k v _ entry);
        [done | by apply homed_elsewhere | done].
    + apply (well_formed_store map k entry); [done | done | |].
      * by apply unique_keys_link.
      * intros x [-> | Hx]%elem_of_cons; [by right | by left].
  - rewrite put_scan_first in H by done. inversion H; subst.
    split; [by rewrite get_scan_first |]. split.
    + unfold contents. simpl.
      apply (table_map_insert (key e) v _ (pre ++ e :: post));
        [done | by apply homed_elsewhere | by apply chain_map_overwrite].
    + apply (well_formed_store map (key e) (pre ++ e :: post)); [done | done | |].
      * by apply (unique_keys_overwrite _ v pre e post).
      * intros x [Hx | [-> | Hx]%elem_of_cons]%elem_of_app; [| by right |].
        -- left. apply elem_of_app. by left.
        -- left. apply elem_of_app. right. by right.
Qed.

Lemma del_refines map k :
  well_formed map →
  ∃ map',
    del map k = Done (answer (contents map !! k), map') ∧
    contents map' = delete k (contents map) ∧ well_formed map'.
Proof.
  intros Hwf. pose proof Hwf as (Hs & Hu & Hh).
  destruct (home_bucket map k Hs) as [entry Hb].
  pose proof (Forall_lookup_1 _ _ _ _ Hu Hb) as Hentry.
  rewrite (del_eq map k entry Hs Hb). cbv zeta.
  rewrite (contents_lookup map k entry Hh Hb), <- get_scan_answer.
  destruct (chain_split k entry) as [Habs | (pre & e & post & -> & Hk & Hpre)].
  - rewrite del_scan_absent, get_scan_absent by done.
    eexists. split; [reflexivity |]. split; [| done].
    unfold contents. simpl. symmetry. apply delete_id.
    rewrite (table_map_lookup k (home map k) entry);
      [by apply chain_map_absent | done | by apply homed_elsewhere].
  - rewrite del_scan_first, get_scan_first by done. simpl app.
    eexists. split; [reflexivity |].
    pose proof (absent_unlink k pre e post Hentry Hk) as [_ Hpost]%absent_app.
    split.
    + unfold contents. simpl.
      apply (table_map_delete k _ (pre ++ e :: post));
        [done | by apply homed_elsewhere | by apply chain_map_unlink].
    + apply (well_formed_store map k (pre ++ e :: post) (pre ++ post) Hwf Hb).
      * by eapply unique_keys_unlink.
      * intros x [Hx | Hx]%elem_of_app; left; apply elem_of_app;
          [by left | right; by right].
Qed.

Lemma exec_refines o map heap r map' heap' :
  well_formed map → exec o (map, heap) = Done (r, (map', heap')) →
  r = answer (contents map !! op_key o)
  ∧ contents map' = apply_op (contents map) o ∧ well_formed map'.
Proof.
  intros Hwf H%exec_Done. destruct o as [k | k v | k]; simpl.
  - destruct H as [H _]. rewrite (get_refines map k Hwf) in H.
    by inversion H; subst.
  - by apply (put_refines heap map k v r map' heap').
  - destruct H as [H _].
    destruct (del_refines map k Hwf) as (m & Hd & Hc & Hw).
    rewrite Hd in H. by inversion H; subst.
Qed.

Lemma run_refines ops map heap map' heap' :
  well_formed map → run ops (map, heap) = Done (map', heap') →
  contents map' = foldl apply_op (contents map) ops ∧ well_formed map'.
Proof.
  revert map heap. induction ops as [|o ops IH]; intros map heap Hwf H.
  - simpl in H. by inversion H; subst.
  - apply run_cons_Done in H as (r & map1 & heap1 & Hexec & Hrun).
    apply (exec_refines _ _ _ _ _ _ Hwf) in Hexec as (_ & Hc & Hwf1).
    apply (IH _ _ Hwf1) in Hrun as [-> Hwf']. simpl. by rewrite Hc.
Qed.

(** A call moves [size] away from the number of entries by one exactly when
    it is a [del] for a key the map does not hold. *)
Lemma exec_miss o map heap r map' heap' :
  well_formed map → exec o (map, heap) = Done (r, (map', heap')) →
  drift map' = drift map + miss o map.
Proof.
  intros (Hs & Hu & Hh) Hexec.
  destruct o as [k | k v | k]; simpl miss.
  - destruct (exec_drift _ _ _ _ _ _ Hexec) as [-> | ([? ?] & _)]; [lia | done].
  - destruct (exec_drift _ _ _ _ _ _ Hexec) as [-> | ([? ?] & _)]; [lia | done].
  - apply exec_Done in Hexec as [H _].
    destruct (home_bucket map k Hs) as [entry Hb].
    rewrite (del_eq map k entry Hs Hb) in H. cbv zeta in H. unfold drift.
    destruct (chain_split k entry) as [Habs | (pre & e & post & -> & Hk & Hpre)].
    + rewrite del_scan_absent in H by done. inversion H; subst. simpl.
      rewrite bool_decide_eq_true_2; [lia |].
      apply Forall_lookup_2. intros j c Hj.
      destruct (decide (j = home map k)) as [-> | Hne];
        [by (rewrite Hb in Hj; inversion Hj; subst) |].
      by apply (homed_elsewhere map k Hh j c).
    + rewrite del_scan_first in H by done. inversion H; subst. simpl.
      rewrite (entry_count_insert _ _ _ _ Hb), !length_app. simpl.
      rewrite bool_decide_eq_false_2; [lia |].
      intros Ha. apply (Forall_lookup_1 _ _ _ _ Ha Hb e); [| done].
      apply elem_of_app. right. left.
Qed.

Lemma run_misses ops map heap map' heap' :
  well_formed map → run ops (map, heap) = Done (map', heap') →
  drift map' = drift map + misses ops (map, heap) ∧ 0 <= misses ops (map, heap).
Proof.
  revert map heap. induction ops as [|o ops IH]; intros map heap Hwf H.
  - simpl in H. inversion H; subst. simpl. lia.
  - apply run_cons_Done in H as (r & map1 & heap1 & Hexec & Hrun).
    pose proof (exec_miss _ _ _ _ _ _ Hwf Hexec) as Hm.
    apply (exec_refines _ _ _ _ _ _ Hwf) in Hexec as Hx. destruct Hx as (_ & _ & Hwf1).
    apply (IH _ _ Hwf1) in Hrun as [Hd Hpos].
    change (misses (o :: ops) (map, heap))
      with (miss o map + match exec o (map, heap) with
                         | Done (_, st') => misses ops st'
                         | Fault _ => 0
                         end).
    rewrite Hexec.
    assert (0 <= miss o map) by (destruct o; simpl; try case_bool_decide; lia).
    lia.
Qed.

Lemma elem_of_concat_table e (t : list chain) :
  e ∈ concat t → ∃ entry i, t !! i = Some entry ∧ e ∈ entry.
Proof.
  induction t as [|entry0 t IH]; simpl; [by inversion 1 |].
  intros [He | He]%elem_of_app.
  - by exists entry0, 0%nat.
  - destruct (IH He) as (entry & i & Hi & Hentry). by exists entry, (S i).
Qed.

(** Distinct keys in every chain and every entry in its bucket make the keys
    distinct over the whole table. *)
Lemma table_keys_distinct (t : list chain) :
  Forall unique_keys t →
  (∀ i j ci cj x y,
      t !! i = Some ci → t !! j = Some cj → i ≠ j → x ∈ ci → y ∈ cj →
      key x ≠ key y) →
  NoDup (key <$> concat t).
Proof.
  induction t as [|entry t IH]; intros Hu Hd; [apply NoDup_nil_2 |].
  apply Forall_cons in Hu as [Hc Hu]. simpl. rewrite fmap_app.
  apply NoDup_app. split; [done |]. split.
  - intros k (x & -> & Hx)%list_elem_of_fmap (y & Hk & Hy)%list_elem_of_fmap.
    apply elem_of_concat_table in Hy as (cj & j & Hj & Hy).
    by apply (Hd 0%nat (S j) entry cj x y).
  - apply IH; [done |]. intros i j ci cj x y Hi Hj Hne.
    apply (Hd (S i) (S j)); [done | done | lia].
Qed.

End CallsRefine.

(** X8. On a well-formed map (positive capacity, distinct keys in every
    chain, every entry in the bucket of its key) [get] answers as a lookup in
    the finite map the table stands for: the value bound to the key, or
    [INT_MAX] when the key is unbound; the association is left as it was. *)
Theorem get_agrees_with_lookup map k :
  well_formed map →
  ∃ map',
    get map k = Done (answer (contents map !! k), map') ∧
    contents map' = contents map ∧ well_formed map'.
Proof.
  intros Hwf. eexists. split; [by apply get_refines |]. done.
Qed.

Lemma get_agrees_with_lookup_witness :
  ∃ map',
    get sample_map 9 = Done (answer (contents sample_map !! 9), map') ∧
    contents map' = contents sample_map ∧ well_formed map'.
Proof. apply (get_agrees_with_lookup sample_map 9). by_evaluation. Defined.

(** X9. On a well-formed map a [put] that returned has acted as an insertion
    in the finite map: it handed back the value the key was bound to, or
    [INT_MAX] for an unbound key, the key is now bound to the new value, every
    other binding is untouched, and the map is still well formed. *)
Theorem put_agrees_with_insert heap map k v r map' heap' :
  well_formed map → put heap map k v = Done (r, map', heap') →
  r = answer (contents map !! k) ∧ contents map' = <[k := v]> (contents map)
  ∧ well_formed map'.
Proof. apply put_refines. Qed.

Lemma put_agrees_with_insert_witness :
  ∃ r map' heap',
    put [] sample_map 13 7 = Done (r, map', heap') ∧
    r = answer (contents sample_map !! 13) ∧
    contents map' = <[13 := 7]> (contents sample_map) ∧ well_formed map'.
Proof.
  eexists _, _, _. split; [reflexivity |].
  apply (put_agrees_with_insert [] sample_map 13 7 _ _ []); [by_evaluation | reflexivity].
Defined.

(** X10. On a well-formed map [del] acts as a deletion in the finite map: it
    returns the value the key was bound to, or [INT_MAX] for an unbound key,
    the key is unbound afterwards, every other binding is untouched, and the
    map is still well formed. *)
Theorem del_agrees_with_delete map k :
  well_formed map →
  ∃ map',
    del map k = Done (answer (contents map !! k), map') ∧
    contents map' = delete k (contents map) ∧ well_formed map'.
Proof. apply del_refines. Qed.

Lemma del_agrees_with_delete_witness :
  ∃ map',
    del sample_map 1 = Done (answer (contents sample_map !! 1), map') ∧
    contents map' = delete 1 (contents sample_map) ∧ well_formed map'.
Proof. apply (del_agrees_with_delete sample_map 1). by_evaluation. Defined.

(** X11. A map built by [initmap] with a positive [int] capacity holds, after
    any history of calls that returned, the finite map obtained by replaying
    the history on the empty map, a [put] as an insertion and a [del] as a
    deletion. *)
Theorem history_agrees_with_finite_map heap c ops map0 heap0 map heap' :
  0 < c <= INT_MAX →
  initmap heap c = Done (map0, heap0) →
  run ops (map0, heap0) = Done (map, heap') →
  contents map = foldl apply_op ∅ ops.
Proof.
  intros Hc ->%initmap_Done Hrun.
  destruct (run_refines _ _ _ _ _ (fresh_map_well_formed c Hc) Hrun) as [-> _].
  by rewrite fresh_map_contents.
Qed.

Lemma history_agrees_with_finite_map_witness :
  contents sample_map = foldl apply_op ∅ [Put 1 100; Put 5 200; Put 9 300].
Proof.
  apply (history_agrees_with_finite_map [] 4 [Put 1 100; Put 5 200; Put 9 300]
           (fresh_map 4) [] sample_map []);
    [unfold INT_MAX; lia | reflexivity | reflexivity].
Defined.

(** X12. In a map built by [initmap] with a positive [int] capacity, after
    any history of calls that returned, every entry sits in the bucket of
    index [unsigned(key) mod capacity], and no two entries of the whole
    table carry the same key. *)
Theorem entries_sit_in_their_bucket heap c ops map0 heap0 map heap' :
  0 < c <= INT_MAX →
  initmap heap c = Done (map0, heap0) →
  run ops (map0, heap0) = Done (map, heap') →
  (∀ i entry e,
      table map !! i = Some entry → e ∈ entry →
      Z.to_nat (to_unsigned (key e) mod capacity map) = i) ∧
  NoDup (key <$> concat (table map)).
Proof.
  intros Hc ->%initmap_Done Hrun.
  destruct (run_refines _ _ _ _ _ (fresh_map_well_formed c Hc) Hrun)
    as [_ (Hs & Hu & Hh)].
  split; [exact Hh |].
  apply table_keys_distinct; [exact Hu |].
  intros i j ci cj x y Hi Hj Hne Hx Hy Hk. apply Hne.
  rewrite <- (Hh i ci x Hi Hx), <- (Hh j cj y Hj Hy). by rewrite Hk.
Qed.

Lemma entries_sit_in_their_bucket_witness :
  (∀ i entry e,
      table sample_map !! i = Some entry → e ∈ entry →
      Z.to_nat (to_unsigned (key e) mod capacity sample_map) = i) ∧
  NoDup (key <$> concat (table sample_map)).
Proof.
  apply (entries_sit_in_their_bucket [] 4 [Put 1 100; Put 5 200; Put 9 300]
           (fresh_map 4) [] sample_map []);
    [unfold INT_MAX; lia | reflexivity | reflexivity].
Defined.

(** X13. In a map built by [initmap] with a positive [int] capacity, after
    any history of calls that returned, [size] is the number of entries in
    the table less the number of [del] calls made for a key the map did not
    hold at the time; so [size] never exceeds the number of entries. *)
Theorem size_lags_by_missed_deletes heap c ops map0 heap0 map heap' :
  0 < c <= INT_MAX →
  initmap heap c = Done (map0, heap0) →
  run ops (map0, heap0) = Done (map, heap') →
  size map = entry_count (table map) - misses ops (map0, heap0) ∧
  size map <= entry_count (table map).
Proof.
  intros Hc ->%initmap_Done Hrun.
  destruct (run_misses _ _ _ _ _ (fresh_map_well_formed c Hc) Hrun) as [Hd Hpos].
  unfold drift in Hd. simpl in Hd. rewrite entry_count_replicate in Hd. lia.
Qed.

Lemma size_lags_by_missed_deletes_witness :
  size (set_size (-1) (set_numOps 4 (fresh_map 4)))
  = entry_count (table (set_size (-1) (set_numOps 4 (fresh_map 4))))
    - misses [Del 3; Put 3 30; Get 3; Del 3] (fresh_map 4, []) ∧
  size (set_size (-1) (set_numOps 4 (fresh_map 4)))
  <= entry_count (table (set_size (-1) (set_numOps 4 (fresh_map 4)))).
Proof.
  apply (size_lags_by_missed_deletes [] 4 [Del 3; Put 3 30; Get 3; Del 3]
           (fresh_map 4) [] _ []);
    [unfold INT_MAX; lia | reflexivity | reflexivity].
Defined.

(** ** The dump *)

Section Dump.

Implicit Types (map : ts_hashmap_t) (entry : chain) (e : ts_entry_t) (i n : nat)
  (s : string).

Lemma string_app_nil_r s : s +:+ "" = s.
Proof.
  induction s as [|a s IH]; [done |].
  change (String a (s +:+ "") = String a s). by f_equal.
Qed.

Lemma string_app_assoc s1 s2 s3 : (s1 +:+ s2) +:+ s3 = s1 +:+ (s2 +:+ s3).
Proof.
  induction s1 as [|a s1 IH]; [done |].
  change (String a ((s1 +:+ s2) +:+ s3) = String a (s1 +:+ (s2 +:+ s3))).
  by f_equal.
Qed.

Lemma print_chain_cons e entry :
  print_chain (e :: entry)
  = print_entry e +:+ (match entry with [] => "" | _ :: _ => " -> " end)
    +:+ print_chain entry.
Proof. done. Qed.

(** The loop over a chain writes its entries with an arrow between two of
    them, and none after the last. *)
Lemma print_chain_join entry :
  print_chain entry = String.concat " -> " (print_entry <$> entry).
Proof.
  induction entry as [|e entry IH]; [done |].
  rewrite print_chain_cons, IH. destruct entry as [|e' entry].
  - change (String.concat " -> " (print_entry <$> [e])) with (print_entry e).
    change (String.concat " -> " (print_entry <$> [])) with "".
    by rewrite !string_app_nil_r.
  - done.
Qed.

Lemma print_buckets_lines map i n :
  (i + n = length (table map))%nat →
  print_buckets map i n
  = Done (foldr String.append ""
            (imap (λ j, bucket_line (i + j)) (drop i (table map)))).
Proof.
  revert i. induction n as [|n IH]; intros i Hlen.
  - rewrite drop_ge by lia. done.
  - destruct (lookup_lt_is_Some_2 (table map) i) as [entry Hi]; [lia |].
    rewrite (drop_S _ _ _ Hi), imap_cons. simpl.
    unfold load_bucket. rewrite Hi. simpl.
    rewrite (IH (S i)) by lia. simpl.
    rewrite (imap_ext (bucket_line ∘ Nat.add (S i))
               ((λ j, bucket_line (i + j)) ∘ S)).
    + unfold bucket_line at 2. rewrite print_chain_join, Nat.add_0_r.
      by rewrite !string_app_assoc.
    + intros j x _. simpl. f_equal. lia.
Qed.

End Dump.

(** X14. On a map whose bucket array has as many cells as its capacity says,
    [printmap] writes one line per bucket, in index order: the index between
    brackets and an arrow, then the entries of the chain from the head as
    [(key,value)] with an arrow between two of them and none after the last,
    then a line feed. *)
Theorem printmap_writes_one_line_per_bucket map :
  length (table map) = Z.to_nat (capacity map) →
  printmap map = Done (foldr String.append "" (imap bucket_line (table map))).
Proof.
  intros Hlen. unfold printmap.
  rewrite (print_buckets_lines map 0) by (simpl; lia).
  by rewrite drop_0.
Qed.

Lemma printmap_writes_one_line_per_bucket_witness :
  printmap sample_map
  = Done (foldr String.append "" (imap bucket_line (table sample_map))).
Proof. apply (printmap_writes_one_line_per_bucket sample_map). reflexivity. Defined.

(** ** The teardown *)

Section Teardown.

Implicit Types (map : ts_hashmap_t) (entry : chain) (e : ts_entry_t) (i n : nat)
  (rs : list release) (t : list chain).









End Teardown.



(** ** The map [initmap] returns, and the sentinel *)

(** X16. When [initmap] returns for a positive [int] capacity, the map has
    that capacity, both counters at zero and no entry: it stands for the
    empty finite map, and [get] of any key returns [INT_MAX]. *)
Theorem initmap_returns_an_empty_map heap c map0 heap0 :
  0 < c <= INT_MAX →
  initmap heap c = Done (map0, heap0) →
  capacity map0 = c ∧ numOps map0 = 0 ∧ size map0 = 0 ∧
  entry_count (table map0) = 0 ∧ contents map0 = ∅ ∧
  ∀ k, ∃ map1, get map0 k = Done (INT_MAX, map1).
Proof.
  intros Hc ->%initmap_Done.
  split; [done |]. split; [done |]. split; [done |].
  split; [apply entry_count_replicate |]. split; [apply fresh_map_contents |].
  intros k. eexists.
  rewrite (get_refines _ k (fresh_map_well_formed c Hc)).
  by rewrite fresh_map_contents, lookup_empty.
Qed.

Lemma initmap_returns_an_empty_map_witness :
  capacity (fresh_map 4) = 4 ∧ numOps (fresh_map 4) = 0 ∧ size (fresh_map 4) = 0 ∧
  entry_count (table (fresh_map 4)) = 0 ∧ contents (fresh_map 4) = ∅ ∧
  ∀ k, ∃ map1, get (fresh_map 4) k = Done (INT_MAX, map1).
Proof.
  apply (initmap_returns_an_empty_map [true; true] 4 (fresh_map 4) []);
    [unfold INT_MAX; lia | reflexivity].
Defined.

(** X17. The sentinel is ambiguous: on a well-formed map [get] returns
    [INT_MAX] exactly when the key is unbound or bound to the value
    [INT_MAX], so the result alone does not tell the two apart. *)
Theorem get_sentinel_is_ambiguous map k :
  well_formed map →
  ∃ r map',
    get map k = Done (r, map') ∧
    (r = INT_MAX ↔ contents map !! k = None ∨ contents map !! k = Some INT_MAX).
Proof.
  intros Hwf. eexists _, _. split; [by apply get_refines |].
  destruct (contents map !! k) as [x|]; simpl.
  - split; [intros ->; by right | by intros [? | [= ->]]].
  - split; [by left | done].
Qed.

Lemma get_sentinel_is_ambiguous_witness :
  ∃ r map',
    get sample_map 2 = Done (r, map') ∧
    (r = INT_MAX ↔
     contents sample_map !! 2 = None ∨ contents sample_map !! 2 = Some INT_MAX).
Proof. apply (get_sentinel_is_ambiguous sample_map 2). by_evaluation. Defined.
